(** * goquarkchain: the QKC framed transport, its handshake and dispatch loop,
      and the slave configuration codec

    Shallow embedding of [p2p/qkchandle.go] and of the [SlaveConfig] JSON
    methods of package [config].

    Conventions.
    - A Go byte is a [Z]; a byte slice is a [list Z].  Fixed-width integers
      are [Z] with the conversions ([uint32]) written out.
    - A Go [error] is its message; [None] is the nil error.
    - Functions that Go writes with a receiver and mutable fields take the
      receiver's state and return the new state next to their results.
    - The collaborators that live outside the two files (stream cipher, hash,
      [updateMAC], snappy, encoding/json, the opcode registries, ...) are the
      members of type classes; their contracts are separate classes of laws.
    - Locks, deadlines and log output do not change any value computed here
      and are left out, except the error log of the dispatch loop.
    - Calls whose mere occurrence is stated of the code are events: the
      handler invocations of the dispatch loop and the calls [readQKCMsg]
      makes into the snappy package are kept on record, in order. *)

From Stdlib Require Import ZArith Lia String Ascii.
From stdpp Require Import base gmap list strings.

Local Open Scope Z_scope.

(** ** Bytes, errors, panics *)

Definition byte : Type := Z.
Abbreviation bytes := (list Z).

Definition error : Type := string.

(** io.EOF, io.ErrUnexpectedEOF, and the error of a connection that stops
    accepting bytes. *)
Definition EOF : error := "EOF"%string.
Definition ErrUnexpectedEOF : error := "unexpected EOF"%string.
Definition ErrClosedPipe : error := "io: read/write on closed pipe"%string.

(** errors.New("bad header MAC") and errors.New("bad frame MAC"). *)
Definition errBadHeaderMAC : error := "bad header MAC"%string.
Definition errBadFrameMAC : error := "bad frame MAC"%string.

(** A Go call either returns or panics. *)
Inductive outcome (A : Type) : Type :=
  | Done (a : A)
  | Panic.
Arguments Done {A} a.
Arguments Panic {A}.

(** uint32(n) *)
Definition uint32 (n : Z) : Z := n mod 2 ^ 32.

(** Modelled from the spec: the constant [maxUint24] of rlpx.go, which the
    spec calls the "fixed maximum (24-bit length bound)". *)
Definition maxUint24 : Z := 2 ^ 24 - 1.

(** binary.BigEndian.PutUint32 on a 4-byte window. *)
Definition PutUint32 (v : Z) : bytes :=
  [ Z.land (Z.shiftr v 24) 255; Z.land (Z.shiftr v 16) 255;
    Z.land (Z.shiftr v 8) 255; Z.land v 255 ].

(** binary.BigEndian.Uint32; the callers below always pass four bytes. *)
Definition Uint32 (b : bytes) : Z :=
  match b with
  | b0 :: b1 :: b2 :: b3 :: _ =>
      Z.lor (Z.lor (Z.lor (Z.shiftl b0 24) (Z.shiftl b1 16)) (Z.shiftl b2 8)) b3
  | _ => 0
  end.

(** hmac.Equal: constant-time comparison, true exactly on equal slices. *)
Definition hmac_Equal (a b : bytes) : bool := bool_decide (a = b).

(** copy(dst, src) into a zeroed window of [n] bytes. *)
Definition copy_into (n : nat) (src : bytes) : bytes :=
  take n src ++ replicate (n - length src)%nat 0.

(** ** io.Reader payloads

    A payload stream yields [pending] and then reports [failure] ([None] is
    io.EOF).  A nil [io.Reader] is [None : option Reader]. *)
Record Reader : Type := mkReader { pending : bytes; failure : option error }.

Definition bytes_NewReader (b : bytes) : Reader := mkReader b None.

(** ioutil.ReadAll on a non-nil reader: the bytes, the error, and the reader
    as it is left behind. *)
Definition Reader_ReadAll (r : Reader) : bytes * option error * Reader :=
  (pending r, failure r, mkReader [] (failure r)).

(** ioutil.ReadAll: calling Read on a nil interface panics. *)
Definition ioutil_ReadAll (r : option Reader)
  : outcome (bytes * option error * Reader) :=
  match r with
  | None => Panic
  | Some r => Done (Reader_ReadAll r)
  end.

(** ** p2p.Msg *)
Record Msg : Type := mkMsg { Code : Z; Size : Z; Payload : option Reader }.

(** The zero value of [Msg]. *)
Definition zeroMsg : Msg := mkMsg 0 0 None.

(** ** net.Conn

    [inbound] holds the bytes the peer has sent and that were not read yet;
    when they run out the peer has closed.  [outbound] collects what was
    written.  [wcap] is how many more bytes the connection accepts before it
    breaks ([None]: it never breaks). *)
Record Conn : Type := mkConn {
  inbound : bytes;
  outbound : bytes;
  wcap : option nat
}.

(** io.ReadFull(conn, buf) with [len(buf) = n]. *)
Definition io_ReadFull (c : Conn) (n : nat) : bytes * option error * Conn :=
  if decide (n ≤ length (inbound c))%nat
  then (take n (inbound c), None,
        mkConn (drop n (inbound c)) (outbound c) (wcap c))
  else (inbound c,
        Some (match inbound c with [] => EOF | _ => ErrUnexpectedEOF end),
        mkConn [] (outbound c) (wcap c)).

(** conn.Write(b) *)
Definition conn_Write (c : Conn) (b : bytes) : option error * Conn :=
  match wcap c with
  | None => (None, mkConn (inbound c) (outbound c ++ b) None)
  | Some k =>
      if decide (length b ≤ k)%nat
      then (None, mkConn (inbound c) (outbound c ++ b) (Some (k - length b)%nat))
      else (Some ErrClosedPipe,
            mkConn (inbound c) (outbound c ++ take k b) (Some 0%nat))
  end.

(** ** Collaborators of the frame codec *)

(** What rlpx.go and the crypto packages supply: a stream cipher seen as a
    key-stream generator ([cipher.Stream]), a running hash ([hash.Hash]), the
    MAC block cipher with [updateMAC], and two constants. *)
Class Rlpx : Type := {
  cipherStream : Type;
  keystream : cipherStream → byte * cipherStream;
  hashState : Type;
  hash_Write : hashState → bytes → hashState;
  hash_Sum : hashState → bytes;
  cipherBlock : Type;
  updateMAC : hashState → cipherBlock → bytes → hashState * bytes;
  errPlainMessageTooLarge : error;
  baseProtocolLength : Z
}.

(** [updateMAC] returns a 16-byte MAC. *)
Class RlpxLaws (R : Rlpx) : Prop := {
  updateMAC_length : ∀ h b seed, length (updateMAC h b seed).2 = 16%nat
}.

(** github.com/golang/snappy *)
Class Snappy : Type := {
  snappy_Encode : bytes → bytes;
  snappy_DecodedLen : bytes → Z * option error;
  snappy_Decode : bytes → bytes * option error
}.

(** The block format's contract on payloads within the 24-bit bound. *)
Class SnappyLaws (S : Snappy) : Prop := {
  snappy_Decode_Encode : ∀ p,
    Z.of_nat (length p) ≤ maxUint24 →
    snappy_Decode (snappy_Encode p) = (p, None);
  snappy_DecodedLen_Encode : ∀ p,
    Z.of_nat (length p) ≤ maxUint24 →
    snappy_DecodedLen (snappy_Encode p) = (Z.of_nat (length p), None);
  snappy_MaxEncodedLen : ∀ p,
    Z.of_nat (length p) ≤ maxUint24 →
    Z.of_nat (length (snappy_Encode p))
      ≤ 32 + Z.of_nat (length p) + Z.of_nat (length p) / 6
}.

(** ** rlpxFrameRW: the per-connection codec state

    The record is indexed by the three state types of the collaborators;
    [RW] is the record at the types of the [Rlpx] at hand. *)
Record rlpxFrameRW (stream hash block : Type) : Type := mkRW {
  conn : Conn;
  enc : stream;
  dec : stream;
  macCipher : block;
  egressMAC : hash;
  ingressMAC : hash;
  snappy : bool
}.
Arguments mkRW {stream hash block}.
Arguments conn {stream hash block}.
Arguments enc {stream hash block}.
Arguments dec {stream hash block}.
Arguments macCipher {stream hash block}.
Arguments egressMAC {stream hash block}.
Arguments ingressMAC {stream hash block}.
Arguments snappy {stream hash block}.

Abbreviation RW := (rlpxFrameRW cipherStream hashState cipherBlock).

Section FrameCodec.
Context `{R : Rlpx} `{S : Snappy}.

Definition set_conn (rw : RW) (c : Conn) : RW :=
  mkRW c (enc rw) (dec rw) (macCipher rw) (egressMAC rw) (ingressMAC rw)
    (snappy rw).
Definition set_enc (rw : RW) (s : cipherStream) : RW :=
  mkRW (conn rw) s (dec rw) (macCipher rw) (egressMAC rw) (ingressMAC rw)
    (snappy rw).
Definition set_dec (rw : RW) (s : cipherStream) : RW :=
  mkRW (conn rw) (enc rw) s (macCipher rw) (egressMAC rw) (ingressMAC rw)
    (snappy rw).
Definition set_egressMAC (rw : RW) (h : hashState) : RW :=
  mkRW (conn rw) (enc rw) (dec rw) (macCipher rw) h (ingressMAC rw)
    (snappy rw).
Definition set_ingressMAC (rw : RW) (h : hashState) : RW :=
  mkRW (conn rw) (enc rw) (dec rw) (macCipher rw) (egressMAC rw) h
    (snappy rw).

(** cipher.Stream.XORKeyStream(dst, src): every source byte is xored with
    the next key-stream byte. *)
Fixpoint XORKeyStream (s : cipherStream) (src : bytes)
  : cipherStream * bytes :=
  match src with
  | [] => (s, [])
  | b :: src' =>
      let '(k, s1) := keystream s in
      let '(s2, dst) := XORKeyStream s1 src' in
      (s2, Z.lxor b k :: dst)
  end.

(** *** readQKCMsg *)

(** The length field of a decrypted header: lines 113-114. *)
Definition headerSize (head : bytes) : Z := Uint32 (take 4 head).

(** Lines 101-133: read one frame, check both MACs, decrypt the body.
    Returns the decrypted [frameBuf] or the error. *)
Definition readFrame (rw : RW)
  : bytes * option error * RW :=
  (* read the header *)
  let '(headBuf, err, c1) := io_ReadFull (conn rw) 32 in
  let rw := set_conn rw c1 in
  match err with
  | Some e => ([], Some e, rw)
  | None =>
  (* verify header mac *)
  let '(h1, shouldMAC) :=
    updateMAC (ingressMAC rw) (macCipher rw) (take 16 headBuf) in
  let rw := set_ingressMAC rw h1 in
  if negb (hmac_Equal shouldMAC (drop 16 headBuf))
  then ([], Some errBadHeaderMAC, rw)
  else
  let '(d1, head) := XORKeyStream (dec rw) (take 16 headBuf) in
  let rw := set_dec rw d1 in
  let fSize := headerSize head in
  let '(frameBuf, err, c2) := io_ReadFull (conn rw) (Z.to_nat fSize) in
  let rw := set_conn rw c2 in
  match err with
  | Some e => ([], Some e, rw)
  | None =>
  (* read and validate frame MAC *)
  let rw := set_ingressMAC rw (hash_Write (ingressMAC rw) frameBuf) in
  let fMacSeed := hash_Sum (ingressMAC rw) in
  let '(trailer, err, c3) := io_ReadFull (conn rw) 16 in
  let rw := set_conn rw c3 in
  match err with
  | Some e => ([], Some e, rw)
  | None =>
  let '(h2, shouldMAC) :=
    updateMAC (ingressMAC rw) (macCipher rw) fMacSeed in
  let rw := set_ingressMAC rw h2 in
  if negb (hmac_Equal shouldMAC trailer)
  then ([], Some errBadFrameMAC, rw)
  else
  (* decrypt frame content *)
  let '(d2, plain) := XORKeyStream (dec rw) frameBuf in
  (plain, None, set_dec rw d2)
  end end end.

(** The calls [readQKCMsg] makes into the snappy package, in the order in
    which it makes them, each with the buffer it is given. *)
Inductive snappyCall : Type :=
  | CallDecodedLen (src : bytes)
  | CallDecode (src : bytes).

(** snappy.DecodedLen(src) as a call: its result, and the record of calls
    extended by this one. *)
Definition call_DecodedLen (log : list snappyCall) (src : bytes)
  : Z * option error * list snappyCall :=
  let '(size, err) := snappy_DecodedLen src in
  (size, err, log ++ [CallDecodedLen src]).

(** snappy.Decode(nil, src) as a call. *)
Definition call_Decode (log : list snappyCall) (src : bytes)
  : bytes * option error * list snappyCall :=
  let '(payload, err) := snappy_Decode src in
  (payload, err, log ++ [CallDecode src]).

(** Lines 135-160: wrap the frame content in a [Msg]; with snappy, check
    the declared length and decompress.  The third component is the record
    of the snappy calls made on the way. *)
Definition decodeFrameTraced (snappyOn : bool) (frameBuf : bytes)
  : Msg * option error * list snappyCall :=
  let log : list snappyCall := [] in
  let content := bytes_NewReader frameBuf in
  let msg := mkMsg 0 (uint32 (Z.of_nat (length frameBuf))) (Some content) in
  if snappyOn then
    let '(payload, err, content) := Reader_ReadAll content in
    let msg := mkMsg (Code msg) (Size msg) (Some content) in
    match err with
    | Some e => (msg, Some e, log)
    | None =>
    let '(size, err, log) := call_DecodedLen log payload in
    match err with
    | Some e => (msg, Some e, log)
    | None =>
    if maxUint24 <? size then (msg, Some errPlainMessageTooLarge, log)
    else
    let '(payload, err, log) := call_Decode log payload in
    match err with
    | Some e => (msg, Some e, log)
    | None =>
        (mkMsg baseProtocolLength (uint32 size)
           (Some (bytes_NewReader payload)), None, log)
    end end end
  else (mkMsg baseProtocolLength (Size msg) (Payload msg), None, log).

(** What lines 135-160 return, the record of calls left out. *)
Definition decodeFrame (snappyOn : bool) (frameBuf : bytes)
  : Msg * option error :=
  (decodeFrameTraced snappyOn frameBuf).1.

(** Lines 100-161, with the record of the snappy calls made. *)
Definition readQKCMsgTraced (rw : RW)
  : Msg * option error * RW * list snappyCall :=
  let '(frameBuf, err, rw) := readFrame rw in
  match err with
  | Some e => (zeroMsg, Some e, rw, [])
  | None =>
      let '(msg, err, log) := decodeFrameTraced (snappy rw) frameBuf in
      (msg, err, rw, log)
  end.

(** What [readQKCMsg] returns: message, error and the state after. *)
Definition readQKCMsg (rw : RW)
  : Msg * option error * RW :=
  (readQKCMsgTraced rw).1.

(** *** writeQKCMsg *)

(** cipher.StreamWriter{S: enc, W: io.MultiWriter(conn, egressMAC)}.Write:
    encrypt, send, then fold the ciphertext into the egress MAC. *)
Definition tee_Write (rw : RW) (p : bytes)
  : option error * RW :=
  let '(e1, c) := XORKeyStream (enc rw) p in
  let rw := set_enc rw e1 in
  let '(err, c1) := conn_Write (conn rw) c in
  let rw := set_conn rw c1 in
  match err with
  | Some e => (Some e, rw)
  | None => (None, set_egressMAC rw (hash_Write (egressMAC rw) c))
  end.

(** io.Copy(tee, src): nothing is written when the source has nothing
    left. *)
Definition io_Copy (rw : RW) (src : Reader)
  : option error * RW :=
  match pending src with
  | [] => (failure src, rw)
  | p =>
      let '(err, rw) := tee_Write rw p in
      (match err with Some e => Some e | None => failure src end, rw)
  end.

(** Lines 176-177: the plaintext header block [headBuf[:16]]. *)
Definition frameHeader (size : Z) : bytes :=
  PutUint32 size ++ replicate 12 0.

(** Lines 175-205: header, header MAC, encrypted body, frame MAC. *)
Definition writeFrame (rw : RW) (msg : Msg)
  : outcome (option error) * RW :=
  (* write header *)
  let '(e1, head) := XORKeyStream (enc rw) (frameHeader (Size msg)) in
  let rw := set_enc rw e1 in
  (* write header MAC *)
  let '(h1, mac) := updateMAC (egressMAC rw) (macCipher rw) head in
  let rw := set_egressMAC rw h1 in
  let headBuf := head ++ copy_into 16 mac in
  let '(err, c1) := conn_Write (conn rw) headBuf in
  let rw := set_conn rw c1 in
  match err with
  | Some e => (Done (Some e), rw)
  | None =>
  (* write encrypted frame, updating the egress MAC hash *)
  match ioutil_ReadAll (Payload msg) with
  | Panic => (Panic, rw)
  | Done (realBody, err, rest) =>
  match err with
  | Some e => (Done (Some e), rw)
  | None =>
  let '(err, rw) := tee_Write rw realBody in
  match err with
  | Some e => (Done (Some e), rw)
  | None =>
  let '(err, rw) := io_Copy rw rest in
  match err with
  | Some e => (Done (Some e), rw)
  | None =>
  (* write frame MAC *)
  let fMacSeed := hash_Sum (egressMAC rw) in
  let '(h2, mac) := updateMAC (egressMAC rw) (macCipher rw) fMacSeed in
  let rw := set_egressMAC rw h2 in
  let '(err, c2) := conn_Write (conn rw) mac in
  (Done err, set_conn rw c2)
  end end end end end.

(** Lines 165-174: the snappy stage.  [inl] is the message handed to the
    framing stage, [inr] the error returned instead. *)
Definition compressMsg (snappyOn : bool) (msg : Msg)
  : outcome (Msg + error) :=
  if snappyOn then
    if maxUint24 <? Size msg then Done (inr errPlainMessageTooLarge)
    else
      match ioutil_ReadAll (Payload msg) with
      | Panic => Panic
      | Done (payload, _, _) =>
          let payload := snappy_Encode payload in
          Done (inl (mkMsg (Code msg) (uint32 (Z.of_nat (length payload)))
                       (Some (bytes_NewReader payload))))
      end
  else Done (inl msg).

Definition writeQKCMsg (rw : RW) (msg : Msg)
  : outcome (option error) * RW :=
  match compressMsg (snappy rw) msg with
  | Panic => (Panic, rw)
  | Done (inr e) => (Done (Some e), rw)
  | Done (inl msg) => writeFrame rw msg
  end.

(** WriteMsg: lock, set the write deadline, [writeQKCMsg]. *)
Definition WriteMsg (rw : RW) (msg : Msg)
  : outcome (option error) * RW :=
  writeQKCMsg rw msg.

(** ReadMsg: lock, clear the read deadline, [readQKCMsg]. *)
Definition ReadMsg (rw : RW) : Msg * option error * RW :=
  readQKCMsg rw.

End FrameCodec.


(** ** The application handshake *)

(** types.RootBlockHeader, as far as the hello message fills it. *)
Record RootBlockHeader : Type := mkRootBlockHeader {
  rbVersion : Z;
  rbNumber : Z;
  rbTime : Z;
  rbParentHash : bytes;
  rbMinorHeaderHash : bytes;
  rbDifficulty : Z
}.

Record HelloCmd : Type := mkHelloCmd {
  Version : Z;
  NetWorkID : Z;
  PeerID : bytes;
  PeerPort : Z;
  RootHeader : RootBlockHeader
}.

(** The decoded domain message. *)
Record QKCMsg : Type := mkQKCMsg {
  metaData : bytes;
  op : Z;
  rpcID : Z;
  data : bytes
}.

(** What the rest of package p2p supplies: the message codec ([makeMsg],
    [DecodeQKCMsg]), the opcode [Hello], the devp2p hello exchange of the
    embedded [rlpx], and common.BytesToHash. *)
Class QKCCodec `{Rlpx} : Type := {
  protoHandshake : Type;
  protoHandshake_ID : protoHandshake → bytes;
  rlpx_doProtoHandshake :
    RW → protoHandshake →
    option protoHandshake * option error * RW;
  Hello : Z;
  BytesToHash : bytes → bytes;
  makeMsg : Z → Z → HelloCmd → Msg * option error;
  DecodeQKCMsg : bytes → QKCMsg * option error
}.

Section Handshake.
Context `{R : Rlpx} `{S : Snappy} `{Q : !QKCCodec}.

(** common.Hash{} *)
Definition zeroHash : bytes := replicate 32 0.

(** Lines 213-226: the hello command sent by [doProtoHandshake]. *)
Definition helloCmd (our : protoHandshake) : HelloCmd :=
  {| Version := 0;
     NetWorkID := 24;
     PeerID := BytesToHash (protoHandshake_ID our);
     PeerPort := 38291;
     RootHeader :=
       {| rbVersion := 0;
          rbNumber := 0;
          rbTime := 1519147489;
          rbParentHash := zeroHash;
          rbMinorHeaderHash := zeroHash;
          rbDifficulty := 1000000000000 |} |}.

(** The error of [makeMsg] and the error of [ReadMsg] are both overwritten
    by the assignment that follows them, as in the source. *)
Definition doProtoHandshake (q : RW) (our : protoHandshake)
  : outcome (option protoHandshake * option error) * RW :=
  let '(perHandshake, err, q) := rlpx_doProtoHandshake q our in
  match err with
  | Some e => (Done (None, Some e), q)
  | None =>
  let '(hello, err) := makeMsg Hello 0 (helloCmd our) in
  let '(res, q) := WriteMsg q hello in
  match res with
  | Panic => (Panic, q)
  | Done err =>
  match err with
  | Some e => (Done (None, Some e), q)
  | None =>
  let '(msg, err, q) := ReadMsg q in
  match ioutil_ReadAll (Payload msg) with
  | Panic => (Panic, q)
  | Done (qkcBody, err, _) =>
  match err with
  | Some e => (Done (None, Some e), q)
  | None =>
  let '(qkcMsg, err) := DecodeQKCMsg qkcBody in
  match err with
  | Some e => (Done (None, Some e), q)
  | None => (Done (perHandshake, None), q)
  end end end end end end.

End Handshake.

(** ** The dispatch loop *)

(** The three global registries, keyed by opcode.  A non-RPC handler is
    called with (op, data); an RPC entry is a struct whose [handleFunc] is
    called with data. *)
Class Registry : Type := {
  serializer : Type;
  nonRPCHandler : Type;
  rpcHandler : Type;
  OPSerializerMap : gmap Z serializer;
  OPNonRPCMap : gmap Z nonRPCHandler;
  OpRPCMap : gmap Z rpcHandler
}.

(** The MsgReadWriter interface, read side. *)
Class MsgReadWriter (W : Type) : Type := {
  ws_ReadMsg : W → Msg * option error * W
}.

Section Dispatcher.
Context `{R : Rlpx} `{Q : !QKCCodec} `{G : Registry} `{MsgReadWriter W}.

(** A handler invocation. *)
Inductive call : Type :=
  | CallNonRPC (h : nonRPCHandler) (op : Z) (data : bytes)
  | CallRPC (h : rpcHandler) (data : bytes).

(** What the loop has done so far: the reader, the handler invocations in
    order, and the messages passed to log.Error. *)
Record loopState : Type := mkLoop {
  ws : W;
  calls : list call;
  errlog : list string
}.

Definition log_Error (st : loopState) (m : string) : loopState :=
  mkLoop (ws st) (calls st) (errlog st ++ [m]).

Definition invoke (st : loopState) (c : call) : loopState :=
  mkLoop (ws st) (calls st ++ [c]) (errlog st).

(** One pass through the body of the [for] loop. *)
Inductive step : Type :=
  | Continue
  | Return (err : option error)
  | Panicked.

Definition qkcMsgHandle_body (st : loopState) : step * loopState :=
  let '(msg, err, w) := ws_ReadMsg (ws st) in
  let st := mkLoop w (calls st) (errlog st) in
  match err with
  | Some e => (Return err, log_Error st "readMsg err")
  | None =>
  match ioutil_ReadAll (Payload msg) with
  | Panic => (Panicked, st)
  | Done (qkcBody, err, _) =>
  match err with
  | Some e => (Return err, log_Error st "read payload failed err")
  | None =>
  let '(qkcMsg, err) := DecodeQKCMsg qkcBody in
  match err with
  | Some e => (Return err, log_Error st "decode qkc msg err")
  | None =>
  match OPSerializerMap !! op qkcMsg with
  | None => (Return err, log_Error st "unExcepted op")
  | Some _ =>
  match OPNonRPCMap !! op qkcMsg with
  | Some HandleFunc =>
      (Continue, invoke st (CallNonRPC HandleFunc (op qkcMsg) (data qkcMsg)))
  | None =>
  match OpRPCMap !! op qkcMsg with
  | Some HandleFunc => (Continue, invoke st (CallRPC HandleFunc (data qkcMsg)))
  | None => (Continue, st)
  end end end end end end end.

(** The loop, run for at most [fuel] passes; [None] when it is still
    running after them. *)
Fixpoint qkcMsgHandle (fuel : nat) (st : loopState)
  : option (outcome (option error)) * loopState :=
  match fuel with
  | O => (None, st)
  | S fuel =>
      match qkcMsgHandle_body st with
      | (Continue, st) => qkcMsgHandle fuel st
      | (Return err, st) => (Some (Done err), st)
      | (Panicked, st) => (Some Panic, st)
      end
  end.

End Dispatcher.


(** ** SlaveConfig and its JSON methods *)

(** *** Strings as encoding/json sees them

    A Go string is any byte sequence.  encoding/json writes a string value
    "coerced to valid UTF-8, replacing invalid bytes with the Unicode
    replacement rune" (U+FFFD, the bytes EF BF BD). *)

Definition isCont (b : N) : bool := ((128 <=? b) && (b <=? 191))%N.

(** Width of the UTF-8 sequence at the head of [s]; [0] when the head byte
    does not start a well-formed sequence (utf8.DecodeRune then returns
    RuneError with width 1). *)
Definition runeWidth (s : list N) : nat :=
  match s with
  | [] => 0%nat
  | b0 :: t =>
      if (b0 <? 128)%N then 1%nat
      else if ((194 <=? b0) && (b0 <=? 223))%N then
        match t with
        | b1 :: _ => if isCont b1 then 2%nat else 0%nat
        | _ => 0%nat
        end
      else if ((224 <=? b0) && (b0 <=? 239))%N then
        match t with
        | b1 :: b2 :: _ =>
            let lo := if (b0 =? 224)%N then 160%N else 128%N in
            let hi := if (b0 =? 237)%N then 159%N else 191%N in
            if ((lo <=? b1) && (b1 <=? hi))%N && isCont b2
            then 3%nat else 0%nat
        | _ => 0%nat
        end
      else if ((240 <=? b0) && (b0 <=? 244))%N then
        match t with
        | b1 :: b2 :: b3 :: _ =>
            let lo := if (b0 =? 240)%N then 144%N else 128%N in
            let hi := if (b0 =? 244)%N then 143%N else 191%N in
            if ((lo <=? b1) && (b1 <=? hi))%N && isCont b2 && isCont b3
            then 4%nat else 0%nat
        | _ => 0%nat
        end
      else 0%nat
  end.

(** The coercion, byte by byte; [skip] counts the bytes still to copy of the
    sequence that was recognised last. *)
Fixpoint coerceBytes (skip : nat) (s : list N) : list N :=
  match s with
  | [] => []
  | b :: t =>
      match skip with
      | S k => b :: coerceBytes k t
      | O =>
          match runeWidth s with
          | O => 239%N :: 191%N :: 189%N :: coerceBytes 0 t
          | S k => b :: coerceBytes k t
          end
      end
  end.

(** utf8.Valid *)
Fixpoint validBytes (skip : nat) (s : list N) : bool :=
  match s with
  | [] => true
  | b :: t =>
      match skip with
      | S k => validBytes k t
      | O =>
          match runeWidth s with
          | O => false
          | S k => validBytes k t
          end
      end
  end.

Definition string_bytes (s : string) : list N :=
  map N_of_ascii (list_ascii_of_string s).

Definition bytes_string (l : list N) : string :=
  string_of_list_ascii (map ascii_of_N l).

Definition coerceUTF8 (s : string) : string :=
  bytes_string (coerceBytes 0 (string_bytes s)).

Definition utf8_Valid (s : string) : bool := validBytes 0 (string_bytes s).

(** *** The configuration *)

Class ConfigEnv : Type := {
  ChainMask : Type;
  NewChainMask : Z → ChainMask;
  GetMask : ChainMask → Z;
  DefaultWSPort : Z
}.

Class ConfigLaws (E : ConfigEnv) : Prop := {
  GetMask_NewChainMask : ∀ v, GetMask (NewChainMask v) = v
}.

Record SlaveConfig `{ConfigEnv} : Type := mkSlaveConfig {
  IP : string;
  Port : Z;
  ID : string;
  WSPort : Z;
  ChainMaskList : list ChainMask
}.

Definition SlaveConfigAlias `{ConfigEnv} : Type := SlaveConfig.

(** The anonymous struct of both methods: the embedded alias, whose own
    ChainMaskList carries the tag "-", and the CHAIN_MASK_LIST numbers. *)
Record jsonConfig `{ConfigEnv} : Type := mkJsonConfig {
  alias : SlaveConfigAlias;
  ShardMaskList : list Z
}.

(** encoding/json on [jsonConfig].  [jsonText] is the byte slice that holds
    a JSON text; only encoding/json looks inside it.  [json_Unmarshal]
    decodes into a zero-valued struct. *)
Class EncodingJSON `{ConfigEnv} : Type := {
  jsonText : Type;
  json_Marshal : jsonConfig → jsonText * option error;
  json_Unmarshal : jsonText → jsonConfig * option error
}.

(** What decoding an encoded [jsonConfig] gives back: strings coerced to
    valid UTF-8, the "-" field left at its zero value. *)
Definition json_image `{ConfigEnv} (j : jsonConfig) : jsonConfig :=
  {| alias :=
       {| IP := coerceUTF8 (IP (alias j));
          Port := Port (alias j);
          ID := coerceUTF8 (ID (alias j));
          WSPort := WSPort (alias j);
          ChainMaskList := [] |};
     ShardMaskList := ShardMaskList j |}.

Class EncodingJSONLaws `{ConfigEnv} (J : EncodingJSON) : Prop := {
  json_Marshal_ok : ∀ j, (json_Marshal j).2 = None;
  json_Unmarshal_Marshal : ∀ j,
    json_Unmarshal (json_Marshal j).1 = (json_image j, None)
}.

Section Config.
Context `{E : ConfigEnv} `{J : !EncodingJSON}.

Definition MarshalJSON (s : SlaveConfig) : jsonText * option error :=
  let shardMaskList := map GetMask (ChainMaskList s) in
  let jsonConfig := mkJsonConfig _ s shardMaskList in
  json_Marshal jsonConfig.

(** The receiver [s] is overwritten only when decoding succeeds. *)
Definition UnmarshalJSON (s : SlaveConfig) (input : jsonText)
  : SlaveConfig * option error :=
  let '(jsonConfig, err) := json_Unmarshal input in
  match err with
  | Some e => (s, Some e)
  | None =>
      let s : SlaveConfig := alias jsonConfig in
      let s := mkSlaveConfig _ (IP s) (Port s) (ID s) DefaultWSPort
                 (ChainMaskList s) in
      let s := mkSlaveConfig _ (IP s) (Port s) (ID s) (WSPort s)
                 (map NewChainMask (ShardMaskList jsonConfig)) in
      (s, None)
  end.

End Config.


(** ** An executable instance of the collaborators

    Small stand-ins with the same interfaces, on which the model runs:
    a counter-driven key stream, a checksum as running hash, [updateMAC] in
    the shape rlpx.go gives it, a length-prefixed block format for snappy,
    a two-byte message prefix for the domain codec, scripted connections,
    and JSON documents as trees. *)

Definition exampleRlpx : Rlpx := {|
  cipherStream := Z;
  keystream s := ((37 * s + 11) mod 256, s + 1);
  hashState := Z;
  hash_Write h p := fold_left (λ acc b, (31 * acc + b + 7) mod 2 ^ 32) p h;
  hash_Sum h := map (λ i, Z.land (h + 13 * Z.of_nat i) 255) (seq 0 32);
  cipherBlock := Z;
  updateMAC h k seed :=
    let aesbuf :=
      zip_with Z.lxor
        (map (Z.lxor k)
           (take 16 (map (λ i, Z.land (h + 13 * Z.of_nat i) 255) (seq 0 32))))
        (copy_into 16 seed) in
    let h' := fold_left (λ acc b, (31 * acc + b + 7) mod 2 ^ 32) aesbuf h in
    (h', take 16 (map (λ i, Z.land (h' + 13 * Z.of_nat i) 255) (seq 0 32)));
  errPlainMessageTooLarge := "message length >= 16MB"%string;
  baseProtocolLength := 16
|}.

Definition exampleDecodedLen (c : bytes) : Z * option error :=
  if decide (length c < 4)%nat
  then (0, Some "snappy: corrupt input"%string)
  else (Uint32 (take 4 c), None).

Definition exampleSnappy : Snappy := {|
  snappy_Encode p := PutUint32 (Z.of_nat (length p)) ++ p;
  snappy_DecodedLen := exampleDecodedLen;
  snappy_Decode c :=
    match exampleDecodedLen c with
    | (_, Some e) => ([], Some e)
    | (n, None) =>
        if decide (n = Z.of_nat (length (drop 4 c)))
        then (drop 4 c, None)
        else ([], Some "snappy: corrupt input"%string)
    end
|}.

Definition exampleCodec : @QKCCodec exampleRlpx := {|
  protoHandshake := bytes;
  protoHandshake_ID our := our;
  rlpx_doProtoHandshake q our := (Some our, None, q);
  Hello := 0;
  BytesToHash b := copy_into 32 b;
  makeMsg op rpcID cmd :=
    let body := op :: rpcID :: PeerID cmd in
    (mkMsg 16 (Z.of_nat (length body)) (Some (bytes_NewReader body)), None);
  DecodeQKCMsg body :=
    match body with
    | o :: r :: d => (mkQKCMsg [] o r d, None)
    | _ => (mkQKCMsg [] 0 0 [], Some "decode qkc msg: short body"%string)
    end
|}.

(** Opcodes 1, 2 and 3 have a serializer; 1 and 5 have a non-RPC handler,
    2 has an RPC handler. *)
Definition exampleRegistry : Registry := {|
  serializer := unit;
  nonRPCHandler := string;
  rpcHandler := string;
  OPSerializerMap := <[1 := tt]> (<[2 := tt]> (<[3 := tt]> ∅));
  OPNonRPCMap := <[1 := "onNewTip"%string]> (<[5 := "onOrphan"%string]> ∅);
  OpRPCMap := <[2 := "onGetPeers"%string]> ∅
|}.

(** A reader that replays a script and then reports io.EOF. *)
Definition scriptedReader : MsgReadWriter (list (Msg * option error)) := {|
  ws_ReadMsg w :=
    match w with
    | [] => (zeroMsg, Some EOF, [])
    | (m, e) :: w' => (m, e, w')
    end
|}.

Definition exampleConfigEnv : ConfigEnv := {|
  ChainMask := Z;
  NewChainMask v := v;
  GetMask m := m;
  DefaultWSPort := 38590
|}.

(** JSON documents. *)
#[warnings="-register-all"]
Inductive json : Type :=
  | JNull
  | JNumber (n : Z)
  | JString (s : string)
  | JArray (l : list json)
  | JObject (fields : list (string * json)).

Fixpoint json_field (k : string) (fields : list (string * json))
  : option json :=
  match fields with
  | [] => None
  | (k', v) :: rest => if String.eqb k' k then Some v else json_field k rest
  end.

Definition json_uint (d : option json) : option Z :=
  match d with
  | None | Some JNull => Some 0
  | Some (JNumber n) => Some n
  | Some _ => None
  end.

Definition json_string (d : option json) : option string :=
  match d with
  | None | Some JNull => Some ""%string
  | Some (JString s) => Some s
  | Some _ => None
  end.

Definition json_uints (d : option json) : option (list Z) :=
  match d with
  | None | Some JNull => Some []
  | Some (JArray l) => mapM (λ x, json_uint (Some x)) l
  | Some _ => None
  end.

Definition exampleMarshal (j : @jsonConfig exampleConfigEnv) : json :=
  JObject
    [ ("HOST"%string, JString (coerceUTF8 (IP (alias j))));
      ("PORT"%string, JNumber (Port (alias j)));
      ("ID"%string, JString (coerceUTF8 (ID (alias j))));
      ("WEBSOCKET_JSON_RPC_PORT"%string, JNumber (WSPort (alias j)));
      ("CHAIN_MASK_LIST"%string, JArray (map JNumber (ShardMaskList j))) ].

Definition exampleUnmarshal (doc : json)
  : @jsonConfig exampleConfigEnv * option error :=
  let zero := mkJsonConfig _ (mkSlaveConfig _ "" 0 "" 0 []) [] in
  match doc with
  | JObject fields =>
      match json_string (json_field "HOST" fields),
            json_uint (json_field "PORT" fields),
            json_string (json_field "ID" fields),
            json_uint (json_field "WEBSOCKET_JSON_RPC_PORT" fields),
            json_uints (json_field "CHAIN_MASK_LIST" fields) with
      | Some host, Some port, Some id, Some ws, Some masks =>
          (mkJsonConfig _ (mkSlaveConfig _ host port id ws []) masks, None)
      | _, _, _, _, _ =>
          (zero, Some "json: cannot unmarshal into Go struct field"%string)
      end
  | _ => (zero, Some "json: cannot unmarshal into Go value"%string)
  end.

Definition exampleJSON : @EncodingJSON exampleConfigEnv := {|
  jsonText := json;
  json_Marshal j := (exampleMarshal j, None);
  json_Unmarshal := exampleUnmarshal
|}.


(** ** Vocabulary of the statements *)

Section Vocabulary.
Context `{R : Rlpx} `{S : Snappy}.

(** The reader [r] is the receiving end of the writer [w]: same key-stream
    position, same MAC state, same MAC cipher, same compression setting. *)
Definition matching (w r : RW) : Prop :=
  dec r = enc w ∧ ingressMAC r = egressMAC w ∧ macCipher r = macCipher w
  ∧ snappy r = snappy w.

(** The bytes that were put on the wire between two states of a writer. *)
Definition sent (w w' : RW) : bytes :=
  drop (length (outbound (conn w))) (outbound (conn w')).

(** The frame that carries [body] under the length field [size], sealed
    from key-stream position [e] and MAC state [h], with the positions after
    it. *)
Definition sealFrame (e : cipherStream) (h : hashState) (k : cipherBlock)
    (size : Z) (body : bytes) : bytes * cipherStream * hashState :=
  let '(e1, head) := XORKeyStream e (frameHeader size) in
  let '(h1, mac) := updateMAC h k head in
  let '(e2, cbody) := XORKeyStream e1 body in
  let h2 := hash_Write h1 cbody in
  let '(h3, mac2) := updateMAC h2 k (hash_Sum h2) in
  (head ++ copy_into 16 mac ++ cbody ++ mac2, e2, h3).

(** What the body of the frame for [payload] is: compressed or not. *)
Definition frameBody (snappyOn : bool) (payload : bytes) : bytes :=
  if snappyOn then snappy_Encode payload else payload.

End Vocabulary.

(** The same snappy with another decompressor. *)
Definition withDecode (S : Snappy) (d : bytes → bytes * option error)
  : Snappy :=
  {| snappy_Encode := @snappy_Encode S;
     snappy_DecodedLen := @snappy_DecodedLen S;
     snappy_Decode := d |}.

(** Flip bit [k] of the byte at index [i]. *)
Definition flipBit (i k : nat) (wire : bytes) : bytes :=
  alter (λ b, Z.lxor b (2 ^ Z.of_nat k)) i wire.

(** The header layout in the words of the interface description: the body
    length as a 3-byte big-endian integer, then 13 bytes of padding. *)
Definition PutUint24 (v : Z) : bytes :=
  [ Z.land (Z.shiftr v 16) 255; Z.land (Z.shiftr v 8) 255; Z.land v 255 ].

Definition Uint24 (b : bytes) : Z :=
  match b with
  | b0 :: b1 :: b2 :: _ => Z.lor (Z.lor (Z.shiftl b0 16) (Z.shiftl b1 8)) b2
  | _ => 0
  end.

Definition header24 (head : bytes) (bodyLen : Z) : Prop :=
  ∃ pad, length pad = 13%nat ∧ head = PutUint24 bodyLen ++ pad.

(** ** States and inputs of the example instance *)

(** Two ends of one connection in the example instance: the writer's
    key-stream position and egress MAC state are the reader's, and the
    reader finds [wire] on its connection. *)
Definition exampleWriter (snappyOn : bool) : rlpxFrameRW Z Z Z :=
  mkRW (mkConn [] [] None) 5 9 77 1000 2000 snappyOn.

Definition exampleReader (snappyOn : bool) (wire : bytes)
  : rlpxFrameRW Z Z Z :=
  mkRW (mkConn wire [] None) 9 5 77 2000 1000 snappyOn.

(** A message that carries [payload] with its true length. *)
Definition payloadMsg (payload : bytes) : Msg :=
  mkMsg 16 (Z.of_nat (length payload)) (Some (bytes_NewReader payload)).

(** A well-sealed frame whose body [1; 0; 0; 0] declares a decompressed
    length of 2^24. *)
Definition oversizeWire : bytes :=
  (@sealFrame exampleRlpx 5 1000 77 4 [1; 0; 0; 0]).1.1.

(** A loop state of the example dispatcher that is about to read one
    message with opcode [o], correlation id 0 and data [d]. *)
Definition exampleLoop (o : Z) (d : bytes)
  : @loopState exampleRegistry (list (Msg * option error)) :=
  mkLoop [(payloadMsg (o :: 0 :: d), None)] [] [].

(** A config whose host name is the single byte FF. *)
Definition badHostConfig : @SlaveConfig exampleConfigEnv :=
  mkSlaveConfig exampleConfigEnv (String "255"%char EmptyString) 38392
    "S0" 38590 [1; 2].

Definition localConfig : @SlaveConfig exampleConfigEnv :=
  mkSlaveConfig exampleConfigEnv "127.0.0.1" 38392 "S0" 1234 [1; 2; 3].

Definition zeroConfig : @SlaveConfig exampleConfigEnv :=
  mkSlaveConfig exampleConfigEnv "" 0 "" 0 [].

(** A JSON text that sets WEBSOCKET_JSON_RPC_PORT to 1234. *)
Definition exampleDoc : json :=
  JObject [ ("HOST"%string, JString "10.0.0.7");
            ("WEBSOCKET_JSON_RPC_PORT"%string, JNumber 1234);
            ("CHAIN_MASK_LIST"%string, JArray [JNumber 4; JNumber 6]) ].


(** ** Further vocabulary *)

Section Directions.
Context `{R : Rlpx}.

(** [rw'] differs from [rw] at most in the read direction: the bytes
    written, the write capacity, the egress cipher position and MAC state,
    the MAC cipher and the compression flag are those of [rw]. *)
Definition write_side_kept (rw rw' : RW) : Prop :=
  outbound (conn rw') = outbound (conn rw) ∧ wcap (conn rw') = wcap (conn rw)
  ∧ enc rw' = enc rw ∧ egressMAC rw' = egressMAC rw
  ∧ macCipher rw' = macCipher rw ∧ snappy rw' = snappy rw.

(** [rw'] differs from [rw] at most in the write direction, and what was
    on the wire before is still there, in front. *)
Definition read_side_kept (rw rw' : RW) : Prop :=
  inbound (conn rw') = inbound (conn rw)
  ∧ dec rw' = dec rw ∧ ingressMAC rw' = ingressMAC rw
  ∧ macCipher rw' = macCipher rw ∧ snappy rw' = snappy rw
  ∧ outbound (conn rw) `prefix_of` outbound (conn rw').

End Directions.

(** ** NewDefaultSlaveConfig *)

(** The constants [DefaultHost] and [slavePort] of package config. *)
Class ConfigDefaults : Type := {
  DefaultHost : string;
  slavePort : Z
}.

(** Lines 48-55.  The composite literal sets IP, Port and WSPort; ID is
    left the empty string and ChainMaskList the nil slice.  A slice is
    modelled by the list of its elements, so nil is the list without
    elements here, as is the empty slice that make returns: what is stated
    of this field is stated of its elements and their number only. *)
Definition NewDefaultSlaveConfig `{ConfigEnv} `{ConfigDefaults}
  : SlaveConfig :=
  {| IP := DefaultHost;
     Port := slavePort;
     ID := "";
     WSPort := DefaultWSPort;
     ChainMaskList := [] |}.

(** ** More states of the example instance *)

Definition exampleDefaults : ConfigDefaults :=
  {| DefaultHost := "localhost"; slavePort := 38392 |}.

(** A writer whose connection accepts [k] more bytes. *)
Definition cappedWriter (snappyOn : bool) (k : nat) : rlpxFrameRW Z Z Z :=
  mkRW (mkConn [] [] (Some k)) 5 9 77 1000 2000 snappyOn.

(** The peer's answer to our hello: a frame, sealed for our read
    direction, whose payload the example codec decodes. *)
Definition helloWire : bytes :=
  (@sealFrame exampleRlpx 9 2000 77 3 [0; 0; 1]).1.1.

Definition exampleHandshaker : rlpxFrameRW Z Z Z :=
  mkRW (mkConn helloWire [] None) 5 9 77 1000 2000 false.

(** A payload stream that fails after three bytes. *)
Definition failingReader : Reader :=
  mkReader [1; 2; 3] (Some "payload: broken"%string).


(** * Facts *)

(** ** Bytes and lists *)

Lemma land_255_testbit a n :
  0 ≤ n → Z.testbit (Z.land a 255) n = Z.testbit a n && (n <? 8).
Proof.
  intros Hn. change 255 with (Z.ones 8).
  rewrite Z.land_spec. f_equal.
  destruct (Z.ltb_spec n 8).
  - apply Z.ones_spec_low. lia.
  - apply Z.ones_spec_high. lia.
Qed.

Lemma Uint32_PutUint32 v : 0 ≤ v < 2 ^ 32 → Uint32 (PutUint32 v) = v.
Proof.
  intros Hv. unfold Uint32, PutUint32.
  apply Z.bits_inj'. intros n Hn.
  rewrite !Z.lor_spec. rewrite !Z.shiftl_spec by exact Hn.
  assert (Hhigh : 32 ≤ n → Z.testbit v n = false).
  { intros H32. apply (Z.bits_above_log2 v n); [apply Hv|].
    destruct (Z.eq_dec v 0) as [->|]; [simpl; lia|].
    assert (Z.log2 v < 32); [|lia].
    apply Z.log2_lt_pow2; [|apply Hv]. destruct Hv. lia. }
  assert (Hb : ∀ k, Z.testbit (Z.land (Z.shiftr v k) 255) (n - k)
                    = if decide (k ≤ n < k + 8) then Z.testbit v n else false).
  { intros k. case_decide as Hk.
    - rewrite land_255_testbit, Z.shiftr_spec by lia.
      replace (n - k + k) with n by lia.
      destruct (Z.ltb_spec (n - k) 8); [by rewrite andb_true_r | lia].
    - destruct (Z.lt_ge_cases n k).
      + apply Z.testbit_neg_r. lia.
      + rewrite land_255_testbit by lia.
        destruct (Z.ltb_spec (n - k) 8); [lia | by rewrite andb_false_r]. }
  rewrite !Hb.
  assert (Hb0 : Z.testbit (Z.land v 255) n
                = if decide (0 ≤ n < 8) then Z.testbit v n else false).
  { specialize (Hb 0). rewrite Z.shiftr_0_r, Z.sub_0_r in Hb. exact Hb. }
  rewrite Hb0.
  repeat case_decide; try lia; rewrite ?orb_false_r, ?orb_false_l; try done.
  symmetry. apply Hhigh. lia.
Qed.

Lemma length_PutUint32 v : length (PutUint32 v) = 4%nat.
Proof. reflexivity. Qed.

Lemma length_copy_into n src : length (copy_into n src) = n.
Proof.
  unfold copy_into. rewrite length_app, length_take, length_replicate. lia.
Qed.

Lemma copy_into_exact n src : length src = n → copy_into n src = src.
Proof.
  intros <-. unfold copy_into.
  by rewrite firstn_all, Nat.sub_diag, app_nil_r.
Qed.

Lemma flip_changes b k : Z.lxor b (2 ^ Z.of_nat k) ≠ b.
Proof.
  intros Heq.
  assert (H0 : Z.lxor b (Z.lxor b (2 ^ Z.of_nat k)) = 0)
    by (rewrite Heq; apply Z.lxor_nilpotent).
  rewrite <- Z.lxor_assoc, Z.lxor_nilpotent, Z.lxor_0_l in H0.
  assert (0 < 2 ^ Z.of_nat k) by (apply Z.pow_pos_nonneg; lia).
  lia.
Qed.

Lemma alter_changes (f : Z → Z) (l : bytes) (i : nat) :
  (∀ b, f b ≠ b) → (i < length l)%nat → alter f i l ≠ l.
Proof.
  intros Hf Hi Heq.
  destruct (lookup_lt_is_Some_2 l i Hi) as [b Hb].
  assert (Hl : alter f i l !! i = Some (f b))
    by (rewrite list_lookup_alter, Hb, decide_True by done; reflexivity).
  rewrite Heq, Hb in Hl. injection Hl as Hl. by apply (Hf b).
Qed.

Lemma io_ReadFull_app c a b n :
  inbound c = a ++ b → length a = n →
  io_ReadFull c n = (a, None, mkConn b (outbound c) (wcap c)).
Proof.
  intros Hin <-. unfold io_ReadFull. rewrite Hin.
  rewrite decide_True by (rewrite length_app; lia).
  by rewrite take_app_length, drop_app_length.
Qed.

Lemma conn_Write_open c b :
  wcap c = None →
  conn_Write c b = (None, mkConn (inbound c) (outbound c ++ b) None).
Proof. intros Hc. unfold conn_Write. by rewrite Hc. Qed.

(** ** The frame codec *)

Section TraceErasure.
Context `{R : Rlpx} `{S : Snappy}.

(** Leaving the record of calls out of [decodeFrameTraced] and
    [readQKCMsgTraced] gives the plain reading of lines 135-160 and
    100-161. *)
Lemma decodeFrame_eq (snappyOn : bool) (frameBuf : bytes) :
  decodeFrame snappyOn frameBuf =
  let content := bytes_NewReader frameBuf in
  let msg := mkMsg 0 (uint32 (Z.of_nat (length frameBuf))) (Some content) in
  if snappyOn then
    let '(payload, err, content) := Reader_ReadAll content in
    let msg := mkMsg (Code msg) (Size msg) (Some content) in
    match err with
    | Some e => (msg, Some e)
    | None =>
    let '(size, err) := snappy_DecodedLen payload in
    match err with
    | Some e => (msg, Some e)
    | None =>
    if maxUint24 <? size then (msg, Some errPlainMessageTooLarge)
    else
    let '(payload, err) := snappy_Decode payload in
    match err with
    | Some e => (msg, Some e)
    | None =>
        (mkMsg baseProtocolLength (uint32 size)
           (Some (bytes_NewReader payload)), None)
    end end end
  else (mkMsg baseProtocolLength (Size msg) (Payload msg), None).
Proof.
  unfold decodeFrame, decodeFrameTraced, call_DecodedLen, call_Decode.
  destruct snappyOn; [|done].
  cbn [Reader_ReadAll bytes_NewReader pending failure].
  destruct (snappy_DecodedLen frameBuf) as [size [e|]]; [done|].
  destruct (maxUint24 <? size); [done|].
  by destruct (snappy_Decode frameBuf) as [p [e|]].
Qed.

Lemma readQKCMsg_eq (rw : RW) :
  readQKCMsg rw =
  let '(frameBuf, err, rw) := readFrame rw in
  match err with
  | Some e => (zeroMsg, Some e, rw)
  | None =>
      let '(msg, err) := decodeFrame (snappy rw) frameBuf in
      (msg, err, rw)
  end.
Proof.
  unfold readQKCMsg, readQKCMsgTraced, decodeFrame.
  destruct (readFrame rw) as [[fb [e|]] rw1]; [done|].
  by destruct (decodeFrameTraced _ fb) as [[msg err] log].
Qed.

End TraceErasure.

Section FrameCodecFacts.
Context `{R : Rlpx} `{S : Snappy}.

Lemma XORKeyStream_length s p : length (XORKeyStream s p).2 = length p.
Proof.
  revert s. induction p as [|b p IH]; intros s; simpl; [done|].
  destruct (keystream s) as [k s1]. specialize (IH s1).
  destruct (XORKeyStream s1 p) as [s2 dst]. simpl in *. by rewrite IH.
Qed.

(** Decrypting from the position at which the text was encrypted gives the
    text back and reaches the same position. *)
Lemma XORKeyStream_involutive s p :
  XORKeyStream s (XORKeyStream s p).2 = ((XORKeyStream s p).1, p).
Proof.
  revert s. induction p as [|b p IH]; intros s; simpl; [done|].
  destruct (keystream s) as [k s1] eqn:Hk. specialize (IH s1).
  destruct (XORKeyStream s1 p) as [s2 dst]. simpl in *.
  rewrite Hk, IH. f_equal. f_equal.
  by rewrite Z.lxor_assoc, Z.lxor_nilpotent, Z.lxor_0_r.
Qed.

Lemma length_frameHeader size : length (frameHeader size) = 16%nat.
Proof. reflexivity. Qed.

Lemma headerSize_frameHeader size :
  0 ≤ size < 2 ^ 32 → headerSize (frameHeader size) = size.
Proof. intros Hs. unfold headerSize, frameHeader. simpl. by apply Uint32_PutUint32. Qed.

(** On a connection that does not break, [writeFrame] puts exactly the
    sealed frame on the wire. *)
Lemma writeFrame_ok (rw : RW) (code size : Z) (body : bytes) :
  wcap (conn rw) = None →
  writeFrame rw (mkMsg code size (Some (bytes_NewReader body)))
  = let '(frame, e, h) :=
      sealFrame (enc rw) (egressMAC rw) (macCipher rw) size body in
    (Done None,
     mkRW (mkConn (inbound (conn rw)) (outbound (conn rw) ++ frame) None)
       e (dec rw) (macCipher rw) h (ingressMAC rw) (snappy rw)).
Proof.
  intros Hopen. unfold writeFrame, sealFrame. cbn [Size Payload].
  generalize (frameHeader size). intros hd.
  destruct (XORKeyStream (enc rw) hd) as [e1 head].
  simpl.
  destruct (updateMAC (egressMAC rw) (macCipher rw) head) as [h1 mac].
  simpl. rewrite (conn_Write_open _ _ Hopen). simpl.
  unfold tee_Write. simpl.
  destruct (XORKeyStream e1 body) as [e2 cbody]. simpl.
  unfold io_Copy. simpl.
  destruct (updateMAC (hash_Write h1 cbody) (macCipher rw)
              (hash_Sum (hash_Write h1 cbody))) as [h3 mac2].
  simpl. by rewrite <- !app_assoc.
Qed.

(** The matching reader accepts a sealed frame, returns its body and ends
    at the writer's positions. *)
Lemma readFrame_ok `{!RlpxLaws R} (rw : RW) (size : Z)
    (body rest : bytes) :
  size = Z.of_nat (length body) → size < 2 ^ 32 →
  let '(frame, e, h) :=
    sealFrame (dec rw) (ingressMAC rw) (macCipher rw) size body in
  inbound (conn rw) = frame ++ rest →
  readFrame rw
  = (body, None,
     mkRW (mkConn rest (outbound (conn rw)) (wcap (conn rw)))
       (enc rw) e (macCipher rw) (egressMAC rw) h (snappy rw)).
Proof.
  intros Hsize Hlt. unfold sealFrame.
  assert (Hhs : headerSize (frameHeader size) = size)
    by (apply headerSize_frameHeader; lia).
  pose proof (length_frameHeader size) as Hlhd.
  remember (frameHeader size) as hd eqn:Hhd. clear Hhd.
  destruct (XORKeyStream (dec rw) hd) as [e1 head] eqn:Hhead.
  destruct (updateMAC (ingressMAC rw) (macCipher rw) head) as [h1 mac] eqn:Hmac.
  destruct (XORKeyStream e1 body) as [e2 cbody] eqn:Hbody.
  destruct (updateMAC (hash_Write h1 cbody) (macCipher rw)
              (hash_Sum (hash_Write h1 cbody))) as [h3 mac2] eqn:Hmac2.
  intros Hin.
  assert (Hlhead : length head = 16%nat).
  { pose proof (XORKeyStream_length (dec rw) hd) as Hl.
    rewrite Hhead in Hl. by rewrite <- Hlhd. }
  assert (Hlmac : length mac = 16%nat).
  { pose proof (updateMAC_length (ingressMAC rw) (macCipher rw) head) as Hl.
    by rewrite Hmac in Hl. }
  assert (Hlmac2 : length mac2 = 16%nat).
  { pose proof (updateMAC_length (hash_Write h1 cbody) (macCipher rw)
                  (hash_Sum (hash_Write h1 cbody))) as Hl.
    by rewrite Hmac2 in Hl. }
  assert (Hlbody : length cbody = length body).
  { pose proof (XORKeyStream_length e1 body) as Hl. by rewrite Hbody in Hl. }
  rewrite (copy_into_exact _ _ Hlmac) in Hin.
  unfold readFrame.
  rewrite (io_ReadFull_app (conn rw) (head ++ mac) (cbody ++ mac2 ++ rest) 32);
    [|by rewrite Hin, <- !app_assoc|by rewrite length_app, Hlhead, Hlmac].
  simpl.
  replace (take 16 (head ++ mac)) with head
    by (by rewrite <- Hlhead, take_app_length).
  replace (drop 16 (head ++ mac)) with mac
    by (by rewrite <- Hlhead, drop_app_length).
  rewrite Hmac. simpl.
  unfold hmac_Equal. rewrite bool_decide_eq_true_2 by done. simpl.
  pose proof (XORKeyStream_involutive (dec rw) hd) as Hinv.
  rewrite Hhead in Hinv. simpl in Hinv. rewrite Hinv. simpl.
  rewrite Hhs.
  rewrite (io_ReadFull_app _ cbody (mac2 ++ rest) (Z.to_nat size));
    [|done|lia].
  simpl.
  rewrite (io_ReadFull_app _ mac2 rest 16); [|done|done].
  simpl. rewrite Hmac2. simpl.
  rewrite bool_decide_eq_true_2 by done. simpl.
  pose proof (XORKeyStream_involutive e1 body) as Hinv2.
  rewrite Hbody in Hinv2. simpl in Hinv2. by rewrite Hinv2.
Qed.

(** What [readFrame] answers on a wire that splits into a header block, a
    header MAC, a body of the announced length and a trailer. *)
Lemma readFrame_parts (rw : RW) (head m1 cbody m2 rest : bytes) :
  length head = 16%nat → length m1 = 16%nat → length m2 = 16%nat →
  inbound (conn rw) = head ++ m1 ++ cbody ++ m2 ++ rest →
  headerSize (XORKeyStream (dec rw) head).2 = Z.of_nat (length cbody) →
  (readFrame rw).1
  = let '(h1, mac) := updateMAC (ingressMAC rw) (macCipher rw) head in
    let '(e1, _) := XORKeyStream (dec rw) head in
    let h2 := hash_Write h1 cbody in
    let '(_, mac2) := updateMAC h2 (macCipher rw) (hash_Sum h2) in
    if bool_decide (mac = m1) then
      if bool_decide (mac2 = m2) then ((XORKeyStream e1 cbody).2, None)
      else ([], Some errBadFrameMAC)
    else ([], Some errBadHeaderMAC).
Proof.
  intros Hlhead Hlm1 Hlm2 Hin Hsize. unfold readFrame.
  rewrite (io_ReadFull_app (conn rw) (head ++ m1) (cbody ++ m2 ++ rest) 32);
    [|by rewrite Hin, <- !app_assoc|by rewrite length_app, Hlhead, Hlm1].
  simpl.
  replace (take 16 (head ++ m1)) with head
    by (by rewrite <- Hlhead, take_app_length).
  replace (drop 16 (head ++ m1)) with m1
    by (by rewrite <- Hlhead, drop_app_length).
  destruct (updateMAC (ingressMAC rw) (macCipher rw) head) as [h1 mac].
  simpl. unfold hmac_Equal.
  destruct (XORKeyStream (dec rw) head) as [e1 hd]. simpl in *.
  case_bool_decide; simpl; [|by case_match].
  rewrite Hsize, Nat2Z.id.
  rewrite (io_ReadFull_app _ cbody (m2 ++ rest) (length cbody)); [|done|done].
  simpl.
  rewrite (io_ReadFull_app _ m2 rest 16); [|done|done].
  simpl.
  destruct (updateMAC (hash_Write h1 cbody) (macCipher rw)
              (hash_Sum (hash_Write h1 cbody))) as [h3 mac2].
  simpl. case_bool_decide; simpl; [|done].
  by destruct (XORKeyStream e1 cbody).
Qed.

Lemma readFrame_snappy (rw : RW) :
  snappy (readFrame rw).2 = snappy rw.
Proof. unfold readFrame. repeat case_match; reflexivity. Qed.

Lemma uint32_small n : 0 ≤ n < 2 ^ 32 → uint32 n = n.
Proof. intros Hn. unfold uint32. by apply Z.mod_small. Qed.

Lemma uint32_length_le (p : bytes) :
  Z.of_nat (length p) ≤ maxUint24 → uint32 (Z.of_nat (length p)) = Z.of_nat (length p).
Proof.
  intros Hp. apply uint32_small. unfold maxUint24 in Hp.
  change (2 ^ 24) with 16777216 in Hp. change (2 ^ 32) with 4294967296. lia.
Qed.

Lemma snappy_Encode_fits `{!SnappyLaws S} (p : bytes) :
  Z.of_nat (length p) ≤ maxUint24 →
  Z.of_nat (length (snappy_Encode p)) < 2 ^ 32.
Proof.
  intros Hp. pose proof (snappy_MaxEncodedLen p Hp) as Hm.
  unfold maxUint24 in Hp.
  change (2 ^ 24) with 16777216 in Hp. change (2 ^ 32) with 4294967296.
  Z.div_mod_to_equations. lia.
Qed.

(** The body that goes on the wire fits the 32-bit length field. *)
Lemma frameBody_fits `{!SnappyLaws S} (on : bool) (p : bytes) :
  Z.of_nat (length p) ≤ maxUint24 →
  Z.of_nat (length (frameBody on p)) < 2 ^ 32.
Proof.
  intros Hp. destruct on; simpl; [by apply snappy_Encode_fits|].
  unfold maxUint24 in Hp.
  change (2 ^ 24) with 16777216 in Hp. change (2 ^ 32) with 4294967296. lia.
Qed.

(** [writeQKCMsg] on a message that carries [payload] with its true length,
    over a connection that does not break. *)
Lemma writeQKCMsg_ok `{!SnappyLaws S} (w : RW) (code : Z)
    (payload : bytes) :
  Z.of_nat (length payload) ≤ maxUint24 →
  wcap (conn w) = None →
  writeQKCMsg w (mkMsg code (Z.of_nat (length payload))
                   (Some (bytes_NewReader payload)))
  = let body := frameBody (snappy w) payload in
    let '(frame, e, h) :=
      sealFrame (enc w) (egressMAC w) (macCipher w)
        (Z.of_nat (length body)) body in
    (Done None,
     mkRW (mkConn (inbound (conn w)) (outbound (conn w) ++ frame) None)
       e (dec w) (macCipher w) h (ingressMAC w) (snappy w)).
Proof.
  intros Hp Hopen. unfold writeQKCMsg, compressMsg, frameBody.
  destruct (snappy w) eqn:Hs.
  - cbn [Size Payload Code ioutil_ReadAll Reader_ReadAll bytes_NewReader pending].
    rewrite (proj2 (Z.ltb_ge _ _)) by lia.
    rewrite uint32_small
      by (split; [lia | by apply snappy_Encode_fits]).
    rewrite (writeFrame_ok _ _ _ _ Hopen). by rewrite Hs.
  - rewrite (writeFrame_ok _ _ _ _ Hopen). by rewrite Hs.
Qed.

Lemma sent_app (w w' : RW) (frame : bytes) :
  outbound (conn w') = outbound (conn w) ++ frame → sent w w' = frame.
Proof. intros Ho. unfold sent. by rewrite Ho, drop_app_length. Qed.

Lemma decodeFrame_frameBody `{!SnappyLaws S} (on : bool) (payload : bytes) :
  Z.of_nat (length payload) ≤ maxUint24 →
  decodeFrame on (frameBody on payload)
  = (mkMsg baseProtocolLength (Z.of_nat (length payload))
       (Some (bytes_NewReader payload)), None).
Proof.
  intros Hp. rewrite decodeFrame_eq. unfold frameBody. destruct on.
  - cbn [Reader_ReadAll bytes_NewReader pending failure].
    rewrite (snappy_DecodedLen_Encode _ Hp).
    rewrite (proj2 (Z.ltb_ge _ _)) by lia.
    rewrite (snappy_Decode_Encode _ Hp).
    by rewrite uint32_length_le.
  - cbn [Size Payload]. by rewrite uint32_length_le.
Qed.

(** C1. For every payload whose length is between 0 and the 24-bit maximum,
    [writeQKCMsg] on a connection that stays open succeeds, and
    [readQKCMsg] on the matching receiving state, fed the bytes just
    written, returns without error a message whose payload is the original
    payload, byte for byte, and whose size is its length; compression may be
    on or off, the same on both sides.  Afterwards the two states match
    again and the reader has consumed exactly the frame. *)
Theorem writeQKCMsg_readQKCMsg_roundtrip `{!RlpxLaws R} `{!SnappyLaws S}
    (w : RW) (code : Z) (payload : bytes) :
  Z.of_nat (length payload) ≤ maxUint24 →
  wcap (conn w) = None →
  ∃ w',
    writeQKCMsg w (mkMsg code (Z.of_nat (length payload))
                     (Some (bytes_NewReader payload))) = (Done None, w')
    ∧ ∀ (r : RW) (rest : bytes),
        matching w r →
        inbound (conn r) = sent w w' ++ rest →
        ∃ r',
          readQKCMsg r
          = (mkMsg baseProtocolLength (Z.of_nat (length payload))
               (Some (bytes_NewReader payload)), None, r')
          ∧ matching w' r' ∧ inbound (conn r') = rest.
Proof.
  intros Hp Hopen. rewrite (writeQKCMsg_ok _ _ _ Hp Hopen). cbv zeta.
  set (body := frameBody (snappy w) payload).
  destruct (sealFrame (enc w) (egressMAC w) (macCipher w)
              (Z.of_nat (length body)) body) as [[frame e] h] eqn:Hseal.
  eexists. split; [reflexivity|].
  intros r rest (Hdec & Hmac & Hk & Hsn) Hin.
  rewrite (sent_app _ _ frame) in Hin by reflexivity.
  pose proof (readFrame_ok r (Z.of_nat (length body)) body rest eq_refl
                (frameBody_fits _ _ Hp)) as Hread.
  rewrite Hdec, Hmac, Hk, Hseal in Hread. specialize (Hread Hin).
  rewrite readQKCMsg_eq. rewrite Hread. cbn [snappy].
  rewrite Hsn. fold body. unfold body.
  rewrite (decodeFrame_frameBody _ _ Hp).
  eexists. split; [reflexivity|]. by repeat split.
Qed.

(** The parts of a sealed frame. *)
Lemma sealFrame_parts `{!RlpxLaws R} (e : cipherStream) (h : hashState)
    (k : cipherBlock) (size : Z) (body : bytes) :
  ∃ head mac cbody mac2 e1 h1,
    (sealFrame e h k size body).1.1 = head ++ mac ++ cbody ++ mac2
    ∧ XORKeyStream e (frameHeader size) = (e1, head)
    ∧ updateMAC h k head = (h1, mac)
    ∧ cbody = (XORKeyStream e1 body).2
    ∧ mac2 = (updateMAC (hash_Write h1 cbody) k
                (hash_Sum (hash_Write h1 cbody))).2
    ∧ length head = 16%nat ∧ length mac = 16%nat
    ∧ length cbody = length body ∧ length mac2 = 16%nat.
Proof.
  unfold sealFrame.
  pose proof (XORKeyStream_length e (frameHeader size)) as Hlh.
  rewrite length_frameHeader in Hlh.
  destruct (XORKeyStream e (frameHeader size)) as [e1 head].
  pose proof (updateMAC_length h k head) as Hlm.
  destruct (updateMAC h k head) as [h1 mac] eqn:Hmac.
  pose proof (XORKeyStream_length e1 body) as Hlb.
  destruct (XORKeyStream e1 body) as [e2 cbody] eqn:Hbody.
  pose proof (updateMAC_length (hash_Write h1 cbody) k
                (hash_Sum (hash_Write h1 cbody))) as Hlm2.
  destruct (updateMAC (hash_Write h1 cbody) k
              (hash_Sum (hash_Write h1 cbody))) as [h3 mac2] eqn:Hmac2.
  simpl in *. exists head, mac, cbody, mac2, e1, h1.
  rewrite (copy_into_exact _ _ Hlm), Hmac2, Hbody. by repeat split.
Qed.

(** C2, as the code has it.  In every frame that [writeQKCMsg] puts on the
    wire, the decrypted 16-byte header block is the body length as a 4-byte
    big-endian integer followed by 12 zero bytes, and the length the reader
    computes from the first 4 bytes of that block ([headerSize], at the
    matching key-stream position) is the body length.  The frame is that
    block, 16 bytes of MAC, the body and 16 more bytes of MAC. *)
Theorem frame_header_is_uint32 `{!RlpxLaws R} `{!SnappyLaws S}
    (w : RW) (code : Z) (payload : bytes) :
  Z.of_nat (length payload) ≤ maxUint24 →
  wcap (conn w) = None →
  ∃ w',
    writeQKCMsg w (mkMsg code (Z.of_nat (length payload))
                     (Some (bytes_NewReader payload))) = (Done None, w')
    ∧ let bodyLen := length (frameBody (snappy w) payload) in
      let head := (XORKeyStream (enc w) (take 16 (sent w w'))).2 in
      length (sent w w') = (16 + 16 + bodyLen + 16)%nat
      ∧ head = PutUint32 (Z.of_nat bodyLen) ++ replicate 12 0
      ∧ headerSize head = Z.of_nat bodyLen.
Proof.
  intros Hp Hopen. rewrite (writeQKCMsg_ok _ _ _ Hp Hopen). cbv zeta.
  set (body := frameBody (snappy w) payload).
  destruct (sealFrame_parts (enc w) (egressMAC w) (macCipher w)
              (Z.of_nat (length body)) body)
    as (head & mac & cbody & mac2 & e1 & h1 & Hfr & Hhead & _ & _ & _
        & Hlh & Hlm & Hlb & Hlm2).
  destruct (sealFrame (enc w) (egressMAC w) (macCipher w)
              (Z.of_nat (length body)) body) as [[frame e] h].
  simpl in Hfr. subst frame.
  eexists. split; [reflexivity|].
  rewrite (sent_app _ _ (head ++ mac ++ cbody ++ mac2)) by reflexivity.
  replace (take 16 (head ++ mac ++ cbody ++ mac2)) with head
    by (by rewrite <- Hlh, take_app_length).
  pose proof (XORKeyStream_involutive (enc w)
                (frameHeader (Z.of_nat (length body)))) as Hinv.
  rewrite Hhead in Hinv. simpl in Hinv. rewrite Hinv. simpl snd.
  split; [rewrite !length_app; lia|].
  split; [reflexivity|].
  apply headerSize_frameHeader.
  split; [lia | by apply frameBody_fits].
Qed.

Lemma readQKCMsg_readFrame_error (r : RW) (e : error) :
  (readFrame r).1 = ([], Some e) → (readQKCMsg r).1 = (zeroMsg, Some e).
Proof.
  rewrite readQKCMsg_eq. destruct (readFrame r) as [[fb err] rw'].
  simpl. by intros [= -> ->].
Qed.

(** C5. Take any payload within the bound and the frame [writeQKCMsg] sends
    for it.  If one bit of one byte of the 16-byte header MAC (wire bytes
    16..31) is flipped, [readQKCMsg] on the matching state returns the error
    "bad header MAC"; if one bit of one byte of the trailing 16-byte frame
    MAC is flipped, it returns "bad frame MAC".  In both cases the message
    returned is the zero [Msg]. *)
Theorem flipped_MAC_bit_rejected `{!RlpxLaws R} `{!SnappyLaws S}
    (w : RW) (code : Z) (payload : bytes) :
  Z.of_nat (length payload) ≤ maxUint24 →
  wcap (conn w) = None →
  ∃ w',
    writeQKCMsg w (mkMsg code (Z.of_nat (length payload))
                     (Some (bytes_NewReader payload))) = (Done None, w')
    ∧ ∀ (r : RW) (rest : bytes) (i k : nat),
        matching w r →
        inbound (conn r) = flipBit i k (sent w w') ++ rest →
        let n := length (frameBody (snappy w) payload) in
        ((16 ≤ i < 32)%nat →
         (readQKCMsg r).1 = (zeroMsg, Some errBadHeaderMAC))
        ∧ ((32 + n ≤ i < 48 + n)%nat →
           (readQKCMsg r).1 = (zeroMsg, Some errBadFrameMAC)).
Proof.
  intros Hp Hopen. rewrite (writeQKCMsg_ok _ _ _ Hp Hopen). cbv zeta.
  set (body := frameBody (snappy w) payload).
  destruct (sealFrame_parts (enc w) (egressMAC w) (macCipher w)
              (Z.of_nat (length body)) body)
    as (head & mac & cbody & mac2 & e1 & h1 & Hfr & Hhead & Hmac & Hcb & Hmac2
        & Hlh & Hlm & Hlb & Hlm2).
  destruct (sealFrame (enc w) (egressMAC w) (macCipher w)
              (Z.of_nat (length body)) body) as [[frame e] h].
  simpl in Hfr. subst frame.
  eexists. split; [reflexivity|].
  intros r rest i k (Hdec & Hmc & Hk & Hsn) Hin.
  rewrite (sent_app _ _ (head ++ mac ++ cbody ++ mac2)) in Hin by reflexivity.
  assert (Hinv : XORKeyStream (dec r) head
                 = (e1, frameHeader (Z.of_nat (length body)))).
  { pose proof (XORKeyStream_involutive (enc w)
                  (frameHeader (Z.of_nat (length body)))) as Hinv.
    rewrite Hhead in Hinv. simpl in Hinv. by rewrite Hdec. }
  assert (Hsz : headerSize (XORKeyStream (dec r) head).2
                = Z.of_nat (length cbody)).
  { rewrite Hinv. simpl snd.
    rewrite Hlb. apply headerSize_frameHeader.
    split; [lia | by apply frameBody_fits]. }
  unfold flipBit in Hin.
  split; intros Hi; apply readQKCMsg_readFrame_error.
  - rewrite alter_app_r_alt, alter_app_l in Hin by lia.
    rewrite <- !app_assoc in Hin.
    match type of Hin with _ = _ ++ ?m1 ++ _ =>
      rewrite (readFrame_parts r head m1 cbody mac2 rest Hlh
                 ltac:(by rewrite length_alter) Hlm2 Hin Hsz)
    end.
    rewrite Hmc, Hk, Hmac.
    destruct (XORKeyStream (dec r) head) as [e1' hd'].
    cbv zeta. case_match.
    rewrite bool_decide_eq_false_2; [done|].
    intros Heq. symmetry in Heq. revert Heq.
    apply alter_changes; [intros b; apply flip_changes | lia].
  - rewrite alter_app_r_alt in Hin by lia.
    rewrite alter_app_r_alt in Hin by lia.
    rewrite alter_app_r_alt in Hin by lia.
    rewrite <- !app_assoc in Hin.
    match type of Hin with _ = _ ++ _ ++ _ ++ ?m2 ++ _ =>
      rewrite (readFrame_parts r head mac cbody m2 rest Hlh Hlm
                 ltac:(by rewrite length_alter) Hin Hsz)
    end.
    rewrite Hmc, Hk, Hmac, Hinv. cbv zeta.
    rewrite Hcb in Hmac2.
    destruct (updateMAC (hash_Write h1 cbody) (macCipher w)
                (hash_Sum (hash_Write h1 cbody))) as [h3 mac2'] eqn:Hm2.
    rewrite Hcb in Hm2. rewrite Hm2 in Hmac2. simpl in Hmac2. subst mac2'.
    rewrite bool_decide_eq_true_2 by done.
    rewrite bool_decide_eq_false_2; [done|].
    intros Heq. symmetry in Heq. revert Heq.
    apply alter_changes; [intros b; apply flip_changes | lia].
Qed.

(** C7. With compression on, a message whose size exceeds [maxUint24] is
    refused with [errPlainMessageTooLarge] and the codec state (connection,
    cipher position, egress MAC) is returned unchanged: nothing was written.
    A message at or below the bound that carries a payload stream is handed
    to the framing stage with the compressed payload and with the size set
    to [uint32] of the compressed length, which is the compressed length
    itself as soon as the payload is within the bound. *)
Theorem writeQKCMsg_compression `{!SnappyLaws S}
    (rw : RW) (msg : Msg) :
  snappy rw = true →
  (maxUint24 < Size msg →
   writeQKCMsg rw msg = (Done (Some errPlainMessageTooLarge), rw))
  ∧ (Size msg ≤ maxUint24 →
     ∀ src, Payload msg = Some src →
       let compressed := snappy_Encode (pending src) in
       let msg' :=
         mkMsg (Code msg) (uint32 (Z.of_nat (length compressed)))
           (Some (bytes_NewReader compressed)) in
       compressMsg true msg = Done (inl msg')
       ∧ writeQKCMsg rw msg = writeFrame rw msg'
       ∧ (Z.of_nat (length (pending src)) ≤ maxUint24 →
          Size msg' = Z.of_nat (length compressed))).
Proof.
  intros Hon. unfold writeQKCMsg, compressMsg. rewrite Hon. split.
  - intros Hbig. by rewrite (proj2 (Z.ltb_lt _ _) Hbig).
  - intros Hsmall src Hsrc. rewrite Hsrc.
    rewrite (proj2 (Z.ltb_ge _ _) Hsmall). simpl.
    repeat split. intros Hlen. apply uint32_small.
    split; [lia | by apply snappy_Encode_fits].
Qed.

(** C6. With compression on, when the frame that was read passes both MAC
    checks and the length its body declares ([snappy_DecodedLen]) exceeds
    [maxUint24], [readQKCMsg] returns [errPlainMessageTooLarge]; the message
    it returns still has the body's size and the drained reader.
    Decompression is not attempted: the one call made into the snappy
    package is [DecodedLen] on the body, and no [Decode] call is on record.
    This is so whatever decompressor stands in for [snappy_Decode]. *)
Theorem readQKCMsg_oversize_rejected
    (rw rw' : RW) (frameBuf : bytes) (size : Z) :
  snappy rw = true →
  readFrame rw = (frameBuf, None, rw') →
  snappy_DecodedLen frameBuf = (size, None) →
  maxUint24 < size →
  let rejected :=
    (mkMsg 0 (uint32 (Z.of_nat (length frameBuf))) (Some (mkReader [] None)),
     Some errPlainMessageTooLarge, rw') in
  readQKCMsg rw = rejected
  ∧ readQKCMsgTraced rw = (rejected, [CallDecodedLen frameBuf])
  ∧ ∀ d, @readQKCMsgTraced R (withDecode S d) rw
         = (rejected, [CallDecodedLen frameBuf]).
Proof.
  intros Hon Hread Hlen Hbig rejected.
  pose proof (readFrame_snappy rw) as Hsn. rewrite Hread in Hsn.
  simpl in Hsn. rewrite Hon in Hsn.
  assert (Ht : ∀ S' : Snappy,
             @snappy_DecodedLen S' frameBuf = (size, None) →
             @readQKCMsgTraced R S' rw
             = (rejected, [CallDecodedLen frameBuf])).
  { intros S' Hl. unfold readQKCMsgTraced. rewrite Hread, Hsn.
    unfold decodeFrameTraced, call_DecodedLen.
    cbn [Reader_ReadAll bytes_NewReader pending failure Code Size].
    by rewrite Hl, (proj2 (Z.ltb_lt _ _) Hbig). }
  split; [unfold readQKCMsg; by rewrite (Ht S Hlen)|].
  split; [by apply Ht|]. intros d. by apply Ht.
Qed.

End FrameCodecFacts.

(** ** The application handshake *)

Section HandshakeFacts.
Context `{R : Rlpx} `{S : Snappy} `{Q : !QKCCodec}.

(** A failed write and a failed decode do end the handshake with that
    error. *)
Lemma doProtoHandshake_write_error (q q1 q2 : RW)
    (our : protoHandshake) (their : option protoHandshake) (e : error) :
  rlpx_doProtoHandshake q our = (their, None, q1) →
  WriteMsg q1 (makeMsg Hello 0 (helloCmd our)).1 = (Done (Some e), q2) →
  doProtoHandshake q our = (Done (None, Some e), q2).
Proof.
  intros H1 H2. unfold doProtoHandshake. rewrite H1.
  destruct (makeMsg Hello 0 (helloCmd our)) as [hello herr].
  simpl in H2. by rewrite H2.
Qed.

Lemma doProtoHandshake_decode_error (q q1 q2 q3 : RW)
    (our : protoHandshake) (their : option protoHandshake) (msg : Msg)
    (rerr : option error) (src : Reader) (m : QKCMsg) (e : error) :
  rlpx_doProtoHandshake q our = (their, None, q1) →
  WriteMsg q1 (makeMsg Hello 0 (helloCmd our)).1 = (Done None, q2) →
  ReadMsg q2 = (msg, rerr, q3) →
  Payload msg = Some src → failure src = None →
  DecodeQKCMsg (pending src) = (m, Some e) →
  doProtoHandshake q our = (Done (None, Some e), q3).
Proof.
  intros H1 H2 H3 H4 H5 H6. unfold doProtoHandshake. rewrite H1.
  destruct (makeMsg Hello 0 (helloCmd our)) as [hello herr].
  simpl in H2. rewrite H2, H3, H4. simpl. by rewrite H5, H6.
Qed.

(** C4, what the code does when the frame read fails.  After the devp2p
    exchange and the hello write have succeeded, an error [e] from [ReadMsg]
    is dropped.  If the message that came with it has no payload stream
    (the zero [Msg] of every failure up to the frame MAC check), reading it
    panics: the handshake does not return.  If it has one (the drained
    stream of the snappy failures) and the codec accepts what is left in it,
    the handshake returns success. *)
Theorem doProtoHandshake_drops_read_error (q q1 q2 q3 : RW)
    (our : protoHandshake) (their : option protoHandshake) (msg : Msg)
    (e : error) :
  rlpx_doProtoHandshake q our = (their, None, q1) →
  WriteMsg q1 (makeMsg Hello 0 (helloCmd our)).1 = (Done None, q2) →
  ReadMsg q2 = (msg, Some e, q3) →
  (Payload msg = None → doProtoHandshake q our = (Panic, q3))
  ∧ (∀ src m,
       Payload msg = Some src → failure src = None →
       DecodeQKCMsg (pending src) = (m, None) →
       doProtoHandshake q our = (Done (their, None), q3)).
Proof.
  intros H1 H2 H3. unfold doProtoHandshake. rewrite H1.
  destruct (makeMsg Hello 0 (helloCmd our)) as [hello herr].
  simpl in H2. rewrite H2, H3. split.
  - by intros ->.
  - intros src m -> Hf Hd. simpl. by rewrite Hf, Hd.
Qed.

(** Every failure of [readQKCMsg] before the snappy stage comes with the
    zero [Msg]. *)
Lemma readQKCMsg_frame_error_zeroMsg (rw : RW) (e : error) :
  (readFrame rw).1.2 = Some e → (readQKCMsg rw).1 = (zeroMsg, Some e).
Proof.
  rewrite readQKCMsg_eq. destruct (readFrame rw) as [[fb err] rw'].
  simpl. by intros ->.
Qed.

End HandshakeFacts.

(** ** The dispatch loop *)

Section DispatcherFacts.
Context `{R : Rlpx} `{Q : !QKCCodec} `{G : Registry} `{MsgReadWriter W}.

(** C3, what the code does.  When the decoded opcode has no serializer, the
    pass logs "unExcepted op", invokes no handler and ends the loop, but the
    value it returns is the nil error left by the successful decode. *)
Theorem unregistered_op_returns_nil (st : loopState) (msg : Msg) (w : W)
    (qkcBody : bytes) (rest : Reader) (qkcMsg : QKCMsg) :
  ws_ReadMsg (ws st) = (msg, None, w) →
  ioutil_ReadAll (Payload msg) = Done (qkcBody, None, rest) →
  DecodeQKCMsg qkcBody = (qkcMsg, None) →
  OPSerializerMap !! op qkcMsg = None →
  let st' := mkLoop w (calls st) (errlog st ++ ["unExcepted op"%string]) in
  qkcMsgHandle_body st = (Return None, st')
  ∧ ∀ fuel, qkcMsgHandle (S fuel) st = (Some (Done None), st').
Proof.
  intros H1 H2 H3 H4. cbv zeta.
  assert (Hb : qkcMsgHandle_body st
               = (Return None,
                  mkLoop w (calls st) (errlog st ++ ["unExcepted op"%string]))).
  { unfold qkcMsgHandle_body. by rewrite H1, H2, H3, H4. }
  split; [exact Hb|]. intros fuel. simpl. by rewrite Hb.
Qed.

(** C8, with the guard the code has.  For a decoded message whose opcode has
    a serializer: if the opcode has a non-RPC handler, the pass appends
    exactly one invocation of that handler with (op, data) and the loop goes
    on; if it has none but has an RPC handler, the pass appends exactly one
    invocation of that handler with data and the loop goes on. *)
Theorem registered_op_dispatched (st : loopState) (msg : Msg) (w : W)
    (qkcBody : bytes) (rest : Reader) (qkcMsg : QKCMsg) :
  ws_ReadMsg (ws st) = (msg, None, w) →
  ioutil_ReadAll (Payload msg) = Done (qkcBody, None, rest) →
  DecodeQKCMsg qkcBody = (qkcMsg, None) →
  is_Some (OPSerializerMap !! op qkcMsg) →
  (∀ h, OPNonRPCMap !! op qkcMsg = Some h →
     let st' :=
       mkLoop w (calls st ++ [CallNonRPC h (op qkcMsg) (data qkcMsg)])
         (errlog st) in
     qkcMsgHandle_body st = (Continue, st')
     ∧ ∀ fuel, qkcMsgHandle (S fuel) st = qkcMsgHandle fuel st')
  ∧ (∀ h, OPNonRPCMap !! op qkcMsg = None →
       OpRPCMap !! op qkcMsg = Some h →
       let st' :=
         mkLoop w (calls st ++ [CallRPC h (data qkcMsg)]) (errlog st) in
       qkcMsgHandle_body st = (Continue, st')
       ∧ ∀ fuel, qkcMsgHandle (S fuel) st = qkcMsgHandle fuel st').
Proof.
  intros H1 H2 H3 [ser H4]. split.
  - intros h Hh. cbv zeta.
    assert (Hb : qkcMsgHandle_body st
                 = (Continue,
                    mkLoop w
                      (calls st ++ [CallNonRPC h (op qkcMsg) (data qkcMsg)])
                      (errlog st))).
    { unfold qkcMsgHandle_body. by rewrite H1, H2, H3, H4, Hh. }
    split; [exact Hb|]. intros fuel. simpl. by rewrite Hb.
  - intros h Hn Hh. cbv zeta.
    assert (Hb : qkcMsgHandle_body st
                 = (Continue,
                    mkLoop w (calls st ++ [CallRPC h (data qkcMsg)])
                      (errlog st))).
    { unfold qkcMsgHandle_body. by rewrite H1, H2, H3, H4, Hn, Hh. }
    split; [exact Hb|]. intros fuel. simpl. by rewrite Hb.
Qed.

End DispatcherFacts.

(** ** SlaveConfig *)

Lemma coerceBytes_valid (skip : nat) (s : list N) :
  validBytes skip s = true → coerceBytes skip s = s.
Proof.
  revert skip. induction s as [|b t IH]; intros skip; [done|].
  cbn [validBytes coerceBytes]. destruct skip as [|k].
  - destruct (runeWidth (b :: t)) as [|k]; [done|].
    intros Hv. by rewrite IH.
  - intros Hv. by rewrite IH.
Qed.

Lemma bytes_string_string_bytes (s : string) : bytes_string (string_bytes s) = s.
Proof.
  unfold bytes_string, string_bytes.
  rewrite map_map.
  rewrite (map_ext _ id) by (intros a; apply ascii_N_embedding).
  rewrite map_id. apply string_of_list_ascii_of_string.
Qed.

(** The coercion leaves valid UTF-8 alone. *)
Lemma coerceUTF8_valid (s : string) : utf8_Valid s = true → coerceUTF8 s = s.
Proof.
  unfold utf8_Valid, coerceUTF8. intros Hv.
  rewrite (coerceBytes_valid _ _ Hv). apply bytes_string_string_bytes.
Qed.

Section ConfigFacts.
Context `{E : ConfigEnv} `{J : !EncodingJSON}.

(** C9. Whenever [UnmarshalJSON] accepts its input, the resulting config has
    [WSPort = DefaultWSPort], whatever the input says about
    WEBSOCKET_JSON_RPC_PORT. *)
Theorem UnmarshalJSON_WSPort (s s' : SlaveConfig) (input : jsonText) :
  UnmarshalJSON s input = (s', None) → WSPort s' = DefaultWSPort.
Proof.
  unfold UnmarshalJSON. destruct (json_Unmarshal input) as [j [e|]].
  - intros [= _ ?].
  - by intros [= <-].
Qed.

(** C10, on strings that JSON can carry.  For a config whose IP and ID are
    valid UTF-8, [MarshalJSON] succeeds and [UnmarshalJSON] of its result
    succeeds with the same IP, Port and ID, a ChainMaskList of the same
    length with the same masks in order, and [WSPort = DefaultWSPort]. *)
Theorem MarshalJSON_UnmarshalJSON_roundtrip
    `{!ConfigLaws E} `{!EncodingJSONLaws J} (s s0 : SlaveConfig) :
  utf8_Valid (IP s) = true →
  utf8_Valid (ID s) = true →
  (MarshalJSON s).2 = None
  ∧ ∃ s',
      UnmarshalJSON s0 (MarshalJSON s).1 = (s', None)
      ∧ IP s' = IP s ∧ Port s' = Port s ∧ ID s' = ID s
      ∧ length (ChainMaskList s') = length (ChainMaskList s)
      ∧ map GetMask (ChainMaskList s') = map GetMask (ChainMaskList s)
      ∧ WSPort s' = DefaultWSPort.
Proof.
  intros Hip Hid. unfold MarshalJSON, UnmarshalJSON.
  split; [apply json_Marshal_ok|].
  rewrite json_Unmarshal_Marshal. unfold json_image. simpl.
  eexists. split; [reflexivity|]. simpl.
  rewrite (coerceUTF8_valid _ Hip), (coerceUTF8_valid _ Hid).
  repeat split.
  - by rewrite !length_map.
  - rewrite (map_map NewChainMask GetMask).
    rewrite (map_ext _ id) by (intros v; apply GetMask_NewChainMask).
    apply map_id.
Qed.

End ConfigFacts.

(** ** The example instance satisfies the contracts *)

Lemma exampleRlpxLaws : RlpxLaws exampleRlpx.
Proof. split. intros h b seed. reflexivity. Qed.

Lemma exampleDecodedLen_Encode (p : bytes) :
  Z.of_nat (length p) ≤ maxUint24 →
  exampleDecodedLen (PutUint32 (Z.of_nat (length p)) ++ p)
  = (Z.of_nat (length p), None).
Proof.
  intros Hp. unfold exampleDecodedLen.
  rewrite decide_False by (rewrite length_app, length_PutUint32; lia).
  change (take 4 (PutUint32 (Z.of_nat (length p)) ++ p))
    with (PutUint32 (Z.of_nat (length p))).
  rewrite Uint32_PutUint32; [done|].
  unfold maxUint24 in Hp. change (2 ^ 24) with 16777216 in Hp.
  change (2 ^ 32) with 4294967296. lia.
Qed.

Lemma exampleSnappyLaws : SnappyLaws exampleSnappy.
Proof.
  split; intros p Hp; cbn [snappy_Encode snappy_Decode snappy_DecodedLen
                           exampleSnappy].
  - rewrite (exampleDecodedLen_Encode p Hp).
    change (drop 4 (PutUint32 (Z.of_nat (length p)) ++ p)) with p.
    by rewrite decide_True.
  - by apply exampleDecodedLen_Encode.
  - rewrite length_app, length_PutUint32.
    assert (0 ≤ Z.of_nat (length p) / 6) by (apply Z.div_pos; lia). lia.
Qed.

Lemma exampleConfigLaws : ConfigLaws exampleConfigEnv.
Proof. split. reflexivity. Qed.

Lemma json_uints_numbers (l : list Z) :
  json_uints (Some (JArray (map JNumber l))) = Some l.
Proof.
  unfold json_uints. induction l as [|n l IH]; [done|].
  simpl in *. by rewrite IH.
Qed.

Lemma exampleJSONLaws : @EncodingJSONLaws exampleConfigEnv exampleJSON.
Proof.
  split; [done|]. intros j.
  cbn [json_Marshal json_Unmarshal exampleJSON fst].
  unfold exampleUnmarshal, exampleMarshal.
  cbn [json_field String.eqb Ascii.eqb Bool.eqb json_string json_uint].
  by rewrite json_uints_numbers.
Qed.

(** * The statements on the example instance *)

Lemma writeQKCMsg_readQKCMsg_roundtrip_witness :
  ∃ w',
    @writeQKCMsg exampleRlpx exampleSnappy (exampleWriter true)
      (payloadMsg [1; 2; 3]) = (Done None, w')
    ∧ ∀ (r : rlpxFrameRW Z Z Z) (rest : bytes),
        @matching exampleRlpx (exampleWriter true) r →
        inbound (conn r) = @sent exampleRlpx (exampleWriter true) w' ++ rest →
        ∃ r',
          @readQKCMsg exampleRlpx exampleSnappy r
          = (payloadMsg [1; 2; 3], None, r')
          ∧ @matching exampleRlpx w' r' ∧ inbound (conn r') = rest.
Proof.
  apply (@writeQKCMsg_readQKCMsg_roundtrip exampleRlpx exampleSnappy
           exampleRlpxLaws exampleSnappyLaws (exampleWriter true) 16
           [1; 2; 3]).
  - vm_compute. discriminate.
  - reflexivity.
Defined.

Example roundtrip_runs :
  let w' := (@writeQKCMsg exampleRlpx exampleSnappy (exampleWriter true)
               (payloadMsg [1; 2; 3])).2 in
  (@readQKCMsg exampleRlpx exampleSnappy
     (exampleReader true (outbound (conn w')))).1
  = (payloadMsg [1; 2; 3], None).
Proof. vm_compute. reflexivity. Qed.

Lemma frame_header_is_uint32_witness :
  ∃ w',
    @writeQKCMsg exampleRlpx exampleSnappy (exampleWriter false)
      (payloadMsg [7]) = (Done None, w')
    ∧ let bodyLen := length (@frameBody exampleSnappy false [7]) in
      let head :=
        (@XORKeyStream exampleRlpx 5
           (take 16 (@sent exampleRlpx (exampleWriter false) w'))).2 in
      length (@sent exampleRlpx (exampleWriter false) w') = (16 + 16 + bodyLen + 16)%nat
      ∧ head = PutUint32 (Z.of_nat bodyLen) ++ replicate 12 0
      ∧ headerSize head = Z.of_nat bodyLen.
Proof.
  apply (@frame_header_is_uint32 exampleRlpx exampleSnappy
           exampleRlpxLaws exampleSnappyLaws (exampleWriter false) 16 [7]).
  - vm_compute. discriminate.
  - reflexivity.
Defined.

(** C2 as stated fails: the frame for the one-byte payload [7] has the
    decrypted header 0 0 0 1 0 ... 0, which is not a 3-byte big-endian 1
    followed by 13 bytes of padding; and a 3-byte reading of it gives 0. *)
Lemma frame_header_not_uint24 :
  let w := exampleWriter false in
  let out := @writeQKCMsg exampleRlpx exampleSnappy w (payloadMsg [7]) in
  let head := (@XORKeyStream exampleRlpx (enc w) (take 16 (@sent exampleRlpx w out.2))).2 in
  out.1 = Done None
  ∧ ¬ header24 head (Z.of_nat (length [7]))
  ∧ Uint24 (take 3 head) ≠ Z.of_nat (length [7]).
Proof.
  cbv zeta. split; [vm_compute; reflexivity|]. split.
  - intros (pad & _ & Heq). vm_compute in Heq. discriminate Heq.
  - vm_compute. discriminate.
Qed.

Lemma flipped_MAC_bit_rejected_witness :
  ∃ w',
    @writeQKCMsg exampleRlpx exampleSnappy (exampleWriter true)
      (payloadMsg [1; 2; 3]) = (Done None, w')
    ∧ ∀ (r : rlpxFrameRW Z Z Z) (rest : bytes) (i k : nat),
        @matching exampleRlpx (exampleWriter true) r →
        inbound (conn r) = flipBit i k (@sent exampleRlpx (exampleWriter true) w') ++ rest →
        let n := length (@frameBody exampleSnappy true [1; 2; 3]) in
        ((16 ≤ i < 32)%nat →
         (@readQKCMsg exampleRlpx exampleSnappy r).1
         = (zeroMsg, Some errBadHeaderMAC))
        ∧ ((32 + n ≤ i < 48 + n)%nat →
           (@readQKCMsg exampleRlpx exampleSnappy r).1
           = (zeroMsg, Some errBadFrameMAC)).
Proof.
  apply (@flipped_MAC_bit_rejected exampleRlpx exampleSnappy
           exampleRlpxLaws exampleSnappyLaws (exampleWriter true) 16
           [1; 2; 3]).
  - vm_compute. discriminate.
  - reflexivity.
Defined.

Example flipped_header_MAC_runs :
  let w' := (@writeQKCMsg exampleRlpx exampleSnappy (exampleWriter true)
               (payloadMsg [1; 2; 3])).2 in
  (@readQKCMsg exampleRlpx exampleSnappy
     (exampleReader true (flipBit 20 3 (outbound (conn w'))))).1
  = (zeroMsg, Some errBadHeaderMAC)
  ∧ (@readQKCMsg exampleRlpx exampleSnappy
       (exampleReader true (flipBit 54 0 (outbound (conn w'))))).1
    = (zeroMsg, Some errBadFrameMAC).
Proof. vm_compute. split; reflexivity. Qed.

Lemma readQKCMsg_oversize_rejected_witness :
  let rw := exampleReader true oversizeWire in
  let rejected :=
    (mkMsg 0 4 (Some (mkReader [] None)),
     Some "message length >= 16MB"%string, (@readFrame exampleRlpx rw).2) in
  @readQKCMsg exampleRlpx exampleSnappy rw = rejected
  ∧ @readQKCMsgTraced exampleRlpx exampleSnappy rw
    = (rejected, [CallDecodedLen [1; 0; 0; 0]])
  ∧ ∀ d, @readQKCMsgTraced exampleRlpx (withDecode exampleSnappy d) rw
         = (rejected, [CallDecodedLen [1; 0; 0; 0]]).
Proof.
  apply (@readQKCMsg_oversize_rejected exampleRlpx exampleSnappy
           (exampleReader true oversizeWire)
           (@readFrame exampleRlpx (exampleReader true oversizeWire)).2
           [1; 0; 0; 0] 16777216).
  - reflexivity.
  - reflexivity.
  - vm_compute. reflexivity.
  - vm_compute. reflexivity.
Defined.

(** The record of snappy calls on the example instance: a frame that is
    accepted has [DecodedLen] and then [Decode] on record, the oversize
    frame [DecodedLen] alone, and with compression off nothing is. *)
Example snappy_calls_run :
  let w' := (@writeQKCMsg exampleRlpx exampleSnappy (exampleWriter true)
               (payloadMsg [1; 2; 3])).2 in
  let body := @frameBody exampleSnappy true [1; 2; 3] in
  (@readQKCMsgTraced exampleRlpx exampleSnappy
     (exampleReader true (outbound (conn w')))).2
  = [CallDecodedLen body; CallDecode body]
  ∧ (@readQKCMsgTraced exampleRlpx exampleSnappy
       (exampleReader true oversizeWire)).2
    = [CallDecodedLen [1; 0; 0; 0]]
  ∧ (@readQKCMsgTraced exampleRlpx exampleSnappy exampleHandshaker).2 = [].
Proof. vm_compute. repeat split; reflexivity. Qed.

Lemma writeQKCMsg_compression_witness :
  let rw := exampleWriter true in
  let msg := mkMsg 16 16777216 (Some (bytes_NewReader [1; 2; 3])) in
  (maxUint24 < Size msg →
   @writeQKCMsg exampleRlpx exampleSnappy rw msg
   = (Done (Some "message length >= 16MB"%string), rw))
  ∧ (Size msg ≤ maxUint24 →
     ∀ src, Payload msg = Some src →
       let compressed := @snappy_Encode exampleSnappy (pending src) in
       let msg' :=
         mkMsg (Code msg) (uint32 (Z.of_nat (length compressed)))
           (Some (bytes_NewReader compressed)) in
       @compressMsg exampleRlpx exampleSnappy true msg = Done (inl msg')
       ∧ @writeQKCMsg exampleRlpx exampleSnappy rw msg
         = @writeFrame exampleRlpx rw msg'
       ∧ (Z.of_nat (length (pending src)) ≤ maxUint24 →
          Size msg' = Z.of_nat (length compressed))).
Proof.
  apply (@writeQKCMsg_compression exampleRlpx exampleSnappy exampleSnappyLaws
           (exampleWriter true)
           (mkMsg 16 16777216 (Some (bytes_NewReader [1; 2; 3])))).
  reflexivity.
Defined.

Example oversize_write_runs :
  @writeQKCMsg exampleRlpx exampleSnappy (exampleWriter true)
    (mkMsg 16 16777216 (Some (bytes_NewReader [1; 2; 3])))
  = (Done (Some "message length >= 16MB"%string), exampleWriter true).
Proof. reflexivity. Qed.

Example compressed_write_runs :
  @compressMsg exampleRlpx exampleSnappy true (payloadMsg [1; 2; 3])
  = Done (inl (mkMsg 16 7 (Some (bytes_NewReader [0; 0; 0; 3; 1; 2; 3])))).
Proof. vm_compute. reflexivity. Qed.

(** The peer closes the connection without answering the hello: [ReadMsg]
    fails with io.EOF and the zero [Msg], and the handshake panics. *)
Lemma doProtoHandshake_drops_read_error_witness :
  let q := exampleWriter false in
  let q2 := (@WriteMsg exampleRlpx exampleSnappy q
               (@makeMsg _ exampleCodec 0 0 (@helloCmd _ exampleCodec [1; 2; 3])).1).2 in
  let q3 := (@ReadMsg exampleRlpx exampleSnappy q2).2 in
  @ReadMsg exampleRlpx exampleSnappy q2 = (zeroMsg, Some EOF, q3)
  ∧ @doProtoHandshake exampleRlpx exampleSnappy exampleCodec q [1; 2; 3]
    = (Panic, q3).
Proof.
  cbv zeta. split; [vm_compute; reflexivity|].
  apply (proj1
           (@doProtoHandshake_drops_read_error exampleRlpx exampleSnappy
              exampleCodec (exampleWriter false) (exampleWriter false)
              (@WriteMsg exampleRlpx exampleSnappy (exampleWriter false)
                 (@makeMsg _ exampleCodec 0 0
                    (@helloCmd _ exampleCodec [1; 2; 3])).1).2
              (@ReadMsg exampleRlpx exampleSnappy
                 (@WriteMsg exampleRlpx exampleSnappy (exampleWriter false)
                    (@makeMsg _ exampleCodec 0 0
                       (@helloCmd _ exampleCodec [1; 2; 3])).1).2).2
              [1; 2; 3] (Some [1; 2; 3]) zeroMsg EOF
              ltac:(vm_compute; reflexivity) ltac:(vm_compute; reflexivity)
              ltac:(vm_compute; reflexivity))).
  reflexivity.
Defined.

(** A corrupted header MAC in the peer's answer has the same effect. *)
Example doProtoHandshake_bad_MAC_panics :
  let wire := flipBit 20 3 oversizeWire in
  (@doProtoHandshake exampleRlpx exampleSnappy exampleCodec
     (mkRW (mkConn wire [] None) 9 5 77 2000 1000 true)
     [1; 2; 3]).1
  = Panic.
Proof. vm_compute. reflexivity. Qed.

Lemma unregistered_op_returns_nil_witness :
  let st := exampleLoop 9 [4; 2] in
  let st' := mkLoop [] [] ["unExcepted op"%string] in
  @qkcMsgHandle_body exampleRlpx exampleCodec exampleRegistry _
    scriptedReader st = (Return None, st')
  ∧ ∀ fuel,
      @qkcMsgHandle exampleRlpx exampleCodec exampleRegistry _
        scriptedReader (S fuel) st = (Some (Done None), st').
Proof.
  apply (@unregistered_op_returns_nil exampleRlpx exampleCodec
           exampleRegistry _ scriptedReader (exampleLoop 9 [4; 2])
           (payloadMsg [9; 0; 4; 2]) [] [9; 0; 4; 2] (mkReader [] None)
           (mkQKCMsg [] 9 0 [4; 2]));
    reflexivity.
Defined.

Lemma registered_op_dispatched_witness :
  let st := exampleLoop 1 [4; 2] in
  (∀ h, @OPNonRPCMap exampleRegistry !! 1 = Some h →
     let st' := mkLoop [] [CallNonRPC h 1 [4; 2]] [] in
     @qkcMsgHandle_body exampleRlpx exampleCodec exampleRegistry _
       scriptedReader st = (Continue, st')
     ∧ ∀ fuel,
         @qkcMsgHandle exampleRlpx exampleCodec exampleRegistry _
           scriptedReader (S fuel) st
         = @qkcMsgHandle exampleRlpx exampleCodec exampleRegistry _
             scriptedReader fuel st')
  ∧ (∀ h, @OPNonRPCMap exampleRegistry !! 1 = None →
       @OpRPCMap exampleRegistry !! 1 = Some h →
       let st' := mkLoop [] [CallRPC h [4; 2]] [] in
       @qkcMsgHandle_body exampleRlpx exampleCodec exampleRegistry _
         scriptedReader st = (Continue, st')
       ∧ ∀ fuel,
           @qkcMsgHandle exampleRlpx exampleCodec exampleRegistry _
             scriptedReader (S fuel) st
           = @qkcMsgHandle exampleRlpx exampleCodec exampleRegistry _
               scriptedReader fuel st').
Proof.
  apply (@registered_op_dispatched exampleRlpx exampleCodec
           exampleRegistry _ scriptedReader (exampleLoop 1 [4; 2])
           (payloadMsg [1; 0; 4; 2]) [] [1; 0; 4; 2] (mkReader [] None)
           (mkQKCMsg [] 1 0 [4; 2]));
    [reflexivity | reflexivity | reflexivity |].
  exists tt. reflexivity.
Defined.

Example dispatch_runs :
  (@qkcMsgHandle_body exampleRlpx exampleCodec exampleRegistry _
     scriptedReader (exampleLoop 1 [4; 2]))
  = (Continue, mkLoop [] [@CallNonRPC exampleRegistry "onNewTip"%string 1 [4; 2]] [])
  ∧ (@qkcMsgHandle_body exampleRlpx exampleCodec exampleRegistry _
       scriptedReader (exampleLoop 2 [4; 2]))
    = (Continue, mkLoop [] [@CallRPC exampleRegistry "onGetPeers"%string [4; 2]] [])
  ∧ (@qkcMsgHandle_body exampleRlpx exampleCodec exampleRegistry _
       scriptedReader (exampleLoop 3 [4; 2]))
    = (Continue, mkLoop [] [] []).
Proof. repeat split; vm_compute; reflexivity. Qed.

(** C8 as stated fails: opcode 5 has a non-RPC handler and no serializer;
    the pass for a message with opcode 5 invokes nothing and ends the
    loop. *)
Lemma handler_without_serializer_not_invoked :
  let st := exampleLoop 5 [4; 2] in
  let out := @qkcMsgHandle_body exampleRlpx exampleCodec exampleRegistry _
               scriptedReader st in
  @OPNonRPCMap exampleRegistry !! 5 = Some "onOrphan"%string
  ∧ @DecodeQKCMsg _ exampleCodec [5; 0; 4; 2] = (mkQKCMsg [] 5 0 [4; 2], None)
  ∧ out.1 ≠ Continue
  ∧ calls out.2 ≠ calls st ++ [@CallNonRPC exampleRegistry "onOrphan"%string 5 [4; 2]].
Proof.
  cbv zeta. split; [reflexivity|]. split; [reflexivity|].
  split; [intros Hc; vm_compute in Hc; discriminate Hc|].
  intros Hc. vm_compute in Hc. discriminate Hc.
Qed.

Lemma UnmarshalJSON_WSPort_witness :
  WSPort (@UnmarshalJSON exampleConfigEnv exampleJSON localConfig exampleDoc).1
  = 38590.
Proof.
  apply (@UnmarshalJSON_WSPort exampleConfigEnv exampleJSON localConfig
           (@UnmarshalJSON exampleConfigEnv exampleJSON localConfig
              exampleDoc).1 exampleDoc).
  reflexivity.
Defined.

Example UnmarshalJSON_runs :
  @UnmarshalJSON exampleConfigEnv exampleJSON localConfig exampleDoc
  = (mkSlaveConfig exampleConfigEnv "10.0.0.7" 0 "" 38590 [4; 6], None).
Proof. reflexivity. Qed.

Lemma MarshalJSON_UnmarshalJSON_roundtrip_witness :
  (@MarshalJSON exampleConfigEnv exampleJSON localConfig).2 = None
  ∧ ∃ s',
      @UnmarshalJSON exampleConfigEnv exampleJSON zeroConfig
        (@MarshalJSON exampleConfigEnv exampleJSON localConfig).1
      = (s', None)
      ∧ IP s' = IP localConfig ∧ Port s' = Port localConfig
      ∧ ID s' = ID localConfig
      ∧ length (ChainMaskList s') = length (ChainMaskList localConfig)
      ∧ map (@GetMask exampleConfigEnv) (ChainMaskList s')
        = map (@GetMask exampleConfigEnv) (ChainMaskList localConfig)
      ∧ WSPort s' = 38590.
Proof.
  apply (@MarshalJSON_UnmarshalJSON_roundtrip exampleConfigEnv exampleJSON
           exampleConfigLaws exampleJSONLaws localConfig zeroConfig);
    reflexivity.
Defined.

(** C10 as stated fails: the host name FF is not valid UTF-8; it is written
    as U+FFFD and read back as the three bytes EF BF BD. *)
Lemma roundtrip_changes_invalid_utf8 :
  let text := (@MarshalJSON exampleConfigEnv exampleJSON badHostConfig).1 in
  let out := @UnmarshalJSON exampleConfigEnv exampleJSON zeroConfig text in
  out.2 = None
  ∧ IP out.1
    = String "239"%char (String "191"%char (String "189"%char EmptyString))
  ∧ IP out.1 ≠ IP badHostConfig.
Proof.
  cbv zeta. split; [reflexivity|]. split; [vm_compute; reflexivity|].
  intros Hc. vm_compute in Hc. discriminate Hc.
Qed.

(** * Further properties *)

Ltac lens :=
  repeat first [ rewrite length_app in * | rewrite length_take in *
               | rewrite length_copy_into in * ].

(** ** The two directions of a connection *)

Section DirectionFacts.
Context `{R : Rlpx} `{S : Snappy}.

Lemma io_ReadFull_kept (c : Conn) (n : nat) :
  outbound (io_ReadFull c n).2 = outbound c
  ∧ wcap (io_ReadFull c n).2 = wcap c.
Proof. unfold io_ReadFull. by case_decide. Qed.

Lemma readFrame_write_side (rw : RW) : write_side_kept rw (readFrame rw).2.
Proof.
  unfold write_side_kept, readFrame.
  pose proof (io_ReadFull_kept (conn rw) 32) as [Ho1 Hw1].
  destruct (io_ReadFull (conn rw) 32) as [[headBuf err1] c1].
  simpl in Ho1, Hw1. destruct err1 as [e|]; [by simpl|]. simpl.
  destruct (updateMAC (ingressMAC rw) (macCipher rw) (take 16 headBuf))
    as [h1 mac1]. simpl.
  destruct (negb (hmac_Equal mac1 (drop 16 headBuf))); [by simpl|].
  destruct (XORKeyStream (dec rw) (take 16 headBuf)) as [d1 head]. simpl.
  pose proof (io_ReadFull_kept c1 (Z.to_nat (headerSize head))) as [Ho2 Hw2].
  destruct (io_ReadFull c1 (Z.to_nat (headerSize head)))
    as [[frameBuf err2] c2].
  simpl in Ho2, Hw2. destruct err2 as [e|]; simpl; [by rewrite Ho2, Hw2|].
  pose proof (io_ReadFull_kept c2 16) as [Ho3 Hw3].
  destruct (io_ReadFull c2 16) as [[trailer err3] c3].
  simpl in Ho3, Hw3.
  assert (outbound c3 = outbound (conn rw)) by congruence.
  assert (wcap c3 = wcap (conn rw)) by congruence.
  destruct err3 as [e|]; simpl; [done|].
  destruct (updateMAC _ _ _) as [h2 mac2]. simpl.
  destruct (negb (hmac_Equal mac2 trailer)); simpl; [done|].
  by destruct (XORKeyStream d1 frameBuf).
Qed.

(** X1. [readQKCMsg] never touches the write direction: whatever it returns,
    the bytes written so far, the write capacity, the egress cipher position
    and the egress MAC state are unchanged, and so are the MAC cipher and
    the compression flag. *)
Theorem readQKCMsg_keeps_write_side (rw : RW) :
  write_side_kept rw (readQKCMsg rw).2.
Proof.
  pose proof (readFrame_write_side rw) as Hf. rewrite readQKCMsg_eq.
  destruct (readFrame rw) as [[fb err] rw']. simpl in Hf.
  destruct err; [done|]. by destruct (decodeFrame _ _).
Qed.

Lemma read_side_kept_refl (rw : RW) : read_side_kept rw rw.
Proof. by repeat split. Qed.

Lemma read_side_kept_trans (a b c : RW) :
  read_side_kept a b → read_side_kept b c → read_side_kept a c.
Proof.
  intros (?&?&?&?&?&?) (?&?&?&?&?&?). repeat split; try congruence.
  by etrans.
Qed.

Lemma conn_Write_kept (c : Conn) (b : bytes) :
  inbound (conn_Write c b).2 = inbound c
  ∧ outbound c `prefix_of` outbound (conn_Write c b).2.
Proof.
  unfold conn_Write. repeat case_match; simpl; split; try done;
    apply prefix_app_r; done.
Qed.

Lemma tee_Write_read_side (rw : RW) (p : bytes) :
  read_side_kept rw (tee_Write rw p).2.
Proof.
  unfold tee_Write.
  destruct (XORKeyStream (enc rw) p) as [e1 c]. simpl.
  pose proof (conn_Write_kept (conn rw) c) as [Hi Ho].
  destruct (conn_Write (conn rw) c) as [[e|] c1]; simpl in *; by repeat split.
Qed.

Lemma io_Copy_read_side (rw : RW) (src : Reader) :
  read_side_kept rw (io_Copy rw src).2.
Proof.
  unfold io_Copy. destruct (pending src) as [|b p].
  - apply read_side_kept_refl.
  - pose proof (tee_Write_read_side rw (b :: p)) as Ht.
    by destruct (tee_Write rw (b :: p)).
Qed.

Lemma writeFrame_read_side (rw : RW) (msg : Msg) :
  read_side_kept rw (writeFrame rw msg).2.
Proof.
  unfold writeFrame.
  destruct (XORKeyStream (enc rw) (frameHeader (Size msg))) as [e1 head].
  destruct (updateMAC (egressMAC (set_enc rw e1))
              (macCipher (set_enc rw e1)) head) as [h1 mac]. simpl.
  pose proof (conn_Write_kept (conn rw) (head ++ copy_into 16 mac)) as [Hi Ho].
  destruct (conn_Write (conn rw) (head ++ copy_into 16 mac)) as [err c1].
  simpl in *.
  set (rw1 := set_conn (set_egressMAC (set_enc rw e1) h1) c1).
  assert (H1 : read_side_kept rw rw1) by (by repeat split).
  destruct err; [done|].
  destruct (ioutil_ReadAll (Payload msg)) as [[[body rerr] rest]|]; [|done].
  destruct rerr; [done|].
  pose proof (tee_Write_read_side rw1 body) as H2.
  destruct (tee_Write rw1 body) as [err2 rw2]. simpl in H2.
  assert (H12 := read_side_kept_trans _ _ _ H1 H2).
  destruct err2; [done|].
  pose proof (io_Copy_read_side rw2 rest) as H3.
  destruct (io_Copy rw2 rest) as [err3 rw3]. simpl in H3.
  assert (H13 := read_side_kept_trans _ _ _ H12 H3).
  destruct err3; [done|].
  destruct (updateMAC _ _ _) as [h2 mac2]. simpl.
  pose proof (conn_Write_kept (conn rw3) mac2) as [Hi4 Ho4].
  destruct (conn_Write (conn rw3) mac2) as [err4 c4]. simpl in *.
  eapply read_side_kept_trans; [exact H13|]. by repeat split.
Qed.

(** X2. [writeQKCMsg] never touches the read direction: whatever it returns
    (success, error or panic), the unread inbound bytes, the ingress cipher
    position and the ingress MAC state are unchanged, and so are the MAC
    cipher and the compression flag; on the wire it only appends. *)
Theorem writeQKCMsg_keeps_read_side (rw : RW) (msg : Msg) :
  read_side_kept rw (writeQKCMsg rw msg).2.
Proof.
  unfold writeQKCMsg.
  destruct (compressMsg (snappy rw) msg) as [[m|e]|];
    try apply read_side_kept_refl.
  apply writeFrame_read_side.
Qed.

End DirectionFacts.

(** ** Frames in sequence, cut frames, broken connections *)

Section StreamFacts.
Context `{R : Rlpx} `{S : Snappy}.

(** The matching reader on a sealed frame, with the state it ends in. *)
Lemma readQKCMsg_sealed `{!RlpxLaws R} `{!SnappyLaws S} (r : RW)
    (payload rest : bytes) :
  Z.of_nat (length payload) ≤ maxUint24 →
  let body := frameBody (snappy r) payload in
  let '(frame, e, h) :=
    sealFrame (dec r) (ingressMAC r) (macCipher r)
      (Z.of_nat (length body)) body in
  inbound (conn r) = frame ++ rest →
  readQKCMsg r
  = (mkMsg baseProtocolLength (Z.of_nat (length payload))
       (Some (bytes_NewReader payload)), None,
     mkRW (mkConn rest (outbound (conn r)) (wcap (conn r)))
       (enc r) e (macCipher r) (egressMAC r) h (snappy r)).
Proof.
  intros Hp. cbv zeta.
  pose proof (readFrame_ok r _ (frameBody (snappy r) payload) rest eq_refl
                (frameBody_fits _ _ Hp)) as Hread.
  destruct (sealFrame _ _ _ _ _) as [[frame e] h].
  intros Hin. specialize (Hread Hin).
  rewrite readQKCMsg_eq. rewrite Hread. cbn [snappy].
  by rewrite (decodeFrame_frameBody _ _ Hp).
Qed.

(** X3. Frames delimit themselves.  Two messages written one after the
    other on an open connection are read back, in order and intact, by two
    calls of [readQKCMsg] on the matching state; the second call starts
    exactly where the first frame ends, and afterwards the two ends match
    again. *)
Theorem two_frames_in_sequence `{!RlpxLaws R} `{!SnappyLaws S}
    (w : RW) (c1 c2 : Z) (p1 p2 : bytes) :
  Z.of_nat (length p1) ≤ maxUint24 →
  Z.of_nat (length p2) ≤ maxUint24 →
  wcap (conn w) = None →
  ∃ w1 w2,
    writeQKCMsg w (mkMsg c1 (Z.of_nat (length p1))
                     (Some (bytes_NewReader p1))) = (Done None, w1)
    ∧ writeQKCMsg w1 (mkMsg c2 (Z.of_nat (length p2))
                        (Some (bytes_NewReader p2))) = (Done None, w2)
    ∧ ∀ (r : RW) (rest : bytes),
        matching w r →
        inbound (conn r) = sent w w2 ++ rest →
        ∃ r1 r2,
          readQKCMsg r
          = (mkMsg baseProtocolLength (Z.of_nat (length p1))
               (Some (bytes_NewReader p1)), None, r1)
          ∧ readQKCMsg r1
            = (mkMsg baseProtocolLength (Z.of_nat (length p2))
                 (Some (bytes_NewReader p2)), None, r2)
          ∧ matching w2 r2 ∧ inbound (conn r2) = rest.
Proof.
  intros Hp1 Hp2 Hopen.
  rewrite (writeQKCMsg_ok _ _ _ Hp1 Hopen). cbv zeta.
  destruct (sealFrame (enc w) (egressMAC w) (macCipher w) _
              (frameBody (snappy w) p1)) as [[f1 e1] h1] eqn:Hs1.
  set (w1 := mkRW (mkConn (inbound (conn w)) (outbound (conn w) ++ f1) None)
               e1 (dec w) (macCipher w) h1 (ingressMAC w) (snappy w)).
  exists w1.
  rewrite (writeQKCMsg_ok w1 _ _ Hp2 eq_refl). cbv zeta.
  cbn [w1 enc egressMAC macCipher snappy conn inbound outbound].
  destruct (sealFrame e1 h1 (macCipher w) _
              (frameBody (snappy w) p2)) as [[f2 e2] h2] eqn:Hs2.
  eexists. split; [reflexivity|]. split; [reflexivity|].
  intros r rest (Hdec & Hmac & Hk & Hsn) Hin.
  rewrite (sent_app _ _ (f1 ++ f2)) in Hin
    by (simpl; by rewrite <- app_assoc).
  rewrite <- app_assoc in Hin.
  pose proof (readQKCMsg_sealed r p1 (f2 ++ rest) Hp1) as H1.
  cbv zeta in H1. rewrite Hdec, Hmac, Hk, Hsn, Hs1 in H1.
  specialize (H1 Hin). eexists.
  set (r1 := mkRW (mkConn (f2 ++ rest) (outbound (conn r)) (wcap (conn r)))
               (enc r) e1 (macCipher w) (egressMAC r) h1 (snappy w)) in *.
  pose proof (readQKCMsg_sealed r1 p2 rest Hp2) as H2.
  cbv zeta in H2. cbn [r1 dec ingressMAC macCipher snappy] in H2.
  rewrite Hs2 in H2. specialize (H2 eq_refl).
  eexists. split; [exact H1|]. split; [exact H2|].
  by repeat split.
Qed.

Lemma io_ReadFull_short (c : Conn) (n : nat) :
  (length (inbound c) < n)%nat →
  ∃ e c', io_ReadFull c n = (inbound c, Some e, c')
          ∧ (e = EOF ∨ e = ErrUnexpectedEOF).
Proof.
  intros Hn. unfold io_ReadFull. rewrite decide_False by lia.
  eexists _, _. split; [reflexivity|]. destruct (inbound c); auto.
Qed.

(** [readFrame] on a wire that ends inside the body or inside the frame
    MAC. *)
Lemma readFrame_cut (rw : RW) (head mac cbody tail : bytes) (n : nat) :
  length head = 16%nat → length mac = 16%nat →
  (updateMAC (ingressMAC rw) (macCipher rw) head).2 = mac →
  headerSize (XORKeyStream (dec rw) head).2 = Z.of_nat n →
  (inbound (conn rw) = head ++ mac ++ tail ∧ (length tail < n)%nat)
  ∨ (inbound (conn rw) = head ++ mac ++ cbody ++ tail
     ∧ length cbody = n ∧ (length tail < 16)%nat) →
  ∃ e, (readFrame rw).1 = ([], Some e) ∧ (e = EOF ∨ e = ErrUnexpectedEOF).
Proof.
  intros Hlh Hlm Hmac Hsz Hin. unfold readFrame.
  assert (Hin' : ∃ t, inbound (conn rw) = (head ++ mac) ++ t
                      ∧ ((t = tail ∧ (length tail < n)%nat)
                         ∨ (t = cbody ++ tail ∧ length cbody = n
                            ∧ (length tail < 16)%nat))).
  { destruct Hin as [[-> ?]|(-> & ? & ?)]; eexists;
      (split; [by rewrite <- app_assoc|]); [left|right]; done. }
  destruct Hin' as (t & Hin' & Ht).
  rewrite (io_ReadFull_app (conn rw) (head ++ mac) t 32 Hin')
    by (rewrite length_app; lia).
  simpl.
  replace (take 16 (head ++ mac)) with head
    by (by rewrite <- Hlh, take_app_length).
  replace (drop 16 (head ++ mac)) with mac
    by (by rewrite <- Hlh, drop_app_length).
  destruct (updateMAC (ingressMAC rw) (macCipher rw) head) as [h1 mac'].
  simpl in Hmac. subst mac'. simpl.
  unfold hmac_Equal. rewrite bool_decide_eq_true_2 by done. simpl.
  destruct (XORKeyStream (dec rw) head) as [e1 hd]. simpl in *.
  rewrite Hsz, Nat2Z.id.
  destruct Ht as [[-> Hlt]|(-> & Hlc & Hlt)].
  - destruct (io_ReadFull_short
                (mkConn tail (outbound (conn rw)) (wcap (conn rw))) n Hlt)
      as (e & c' & Hr & He).
    rewrite Hr. simpl. eauto.
  - rewrite (io_ReadFull_app _ cbody tail n); [|done|done].
    simpl.
    destruct (io_ReadFull_short
                (mkConn tail (outbound (conn rw)) (wcap (conn rw))) 16 Hlt)
      as (e & c' & Hr & He).
    rewrite Hr. simpl. eauto.
Qed.

(** X4. A frame that is cut short is never accepted.  If the peer closes
    after any proper prefix of a frame (nothing at all included),
    [readQKCMsg] on the matching state returns the zero [Msg] with io.EOF or
    io.ErrUnexpectedEOF. *)
Theorem truncated_frame_rejected `{!RlpxLaws R} `{!SnappyLaws S}
    (w : RW) (code : Z) (payload : bytes) :
  Z.of_nat (length payload) ≤ maxUint24 →
  wcap (conn w) = None →
  ∃ w',
    writeQKCMsg w (mkMsg code (Z.of_nat (length payload))
                     (Some (bytes_NewReader payload))) = (Done None, w')
    ∧ ∀ (r : RW) (cut : nat),
        matching w r →
        (cut < length (sent w w'))%nat →
        inbound (conn r) = take cut (sent w w') →
        ∃ e, (readQKCMsg r).1 = (zeroMsg, Some e)
             ∧ (e = EOF ∨ e = ErrUnexpectedEOF).
Proof.
  intros Hp Hopen. rewrite (writeQKCMsg_ok _ _ _ Hp Hopen). cbv zeta.
  set (body := frameBody (snappy w) payload).
  destruct (sealFrame_parts (enc w) (egressMAC w) (macCipher w)
              (Z.of_nat (length body)) body)
    as (head & mac & cbody & mac2 & e1 & h1 & Hfr & Hhead & Hmac & Hcb & Hmac2
        & Hlh & Hlm & Hlb & Hlm2).
  destruct (sealFrame (enc w) (egressMAC w) (macCipher w)
              (Z.of_nat (length body)) body) as [[frame e] h].
  simpl in Hfr. subst frame.
  eexists. split; [reflexivity|].
  intros r cut (Hdec & Hmc & Hk & Hsn) Hcut Hin.
  rewrite (sent_app _ _ (head ++ mac ++ cbody ++ mac2)) in Hin, Hcut
    by reflexivity.
  rewrite !length_app in Hcut.
  assert (Hex : ∃ e, (readFrame r).1 = ([], Some e)
                     ∧ (e = EOF ∨ e = ErrUnexpectedEOF)).
  { destruct (decide (cut < 32)%nat) as [Hlt|Hge].
    - assert (Hl : (length (inbound (conn r)) < 32)%nat)
        by (rewrite Hin, length_take; lia).
      destruct (io_ReadFull_short (conn r) 32 Hl) as (e' & c' & Hr & He).
      unfold readFrame. rewrite Hr. simpl. eauto.
    - assert (Hinv : XORKeyStream (dec r) head
                     = (e1, frameHeader (Z.of_nat (length body)))).
      { pose proof (XORKeyStream_involutive (enc w)
                      (frameHeader (Z.of_nat (length body)))) as Hinv.
        rewrite Hhead in Hinv. simpl in Hinv. by rewrite Hdec. }
      assert (Hsz : headerSize (XORKeyStream (dec r) head).2
                    = Z.of_nat (length cbody)).
      { rewrite Hinv. simpl snd. rewrite Hlb. apply headerSize_frameHeader.
        split; [lia | by apply frameBody_fits]. }
      rewrite take_app_ge, take_app_ge in Hin by lia.
      destruct (decide (cut < 32 + length cbody)%nat) as [Hlt2|Hge2].
      + rewrite take_app_le in Hin by lia.
        apply (readFrame_cut r head mac []
                 (take (cut - length head - length mac) cbody)
                 (length cbody) Hlh Hlm);
          [by rewrite Hmc, Hk, Hmac | exact Hsz |].
        left. split; [exact Hin|]. rewrite length_take. lia.
      + rewrite take_app_ge in Hin by lia.
        apply (readFrame_cut r head mac cbody
                 (take (cut - length head - length mac - length cbody) mac2)
                 (length cbody) Hlh Hlm);
          [by rewrite Hmc, Hk, Hmac | exact Hsz |].
        right. split; [exact Hin|]. split; [done|]. rewrite length_take. lia. }
  destruct Hex as (e' & Hr & He). exists e'. split; [|exact He].
  by apply readQKCMsg_readFrame_error.
Qed.

Lemma conn_Write_cap (c : Conn) (b : bytes) (k : nat) :
  wcap c = Some k →
  conn_Write c b
  = if decide (length b ≤ k)%nat
    then (None, mkConn (inbound c) (outbound c ++ b) (Some (k - length b)%nat))
    else (Some ErrClosedPipe,
          mkConn (inbound c) (outbound c ++ take k b) (Some 0%nat)).
Proof. intros Hc. unfold conn_Write. by rewrite Hc. Qed.

Lemma length_sent_app (w w' : RW) (x : bytes) :
  outbound (conn w') = outbound (conn w) ++ x →
  length (sent w w') = length x.
Proof. intros Ho. by rewrite (sent_app _ _ _ Ho). Qed.

Lemma writeFrame_capacity `{!RlpxLaws R} (w : RW) (code size : Z)
    (body : bytes) (k : nat) :
  wcap (conn w) = Some k →
  let out := writeFrame w (mkMsg code size (Some (bytes_NewReader body))) in
  ((48 + length body ≤ k)%nat →
   out.1 = Done None
   ∧ length (sent w out.2) = (48 + length body)%nat
   ∧ wcap (conn out.2) = Some (k - (48 + length body))%nat)
  ∧ ((k < 48 + length body)%nat →
     out.1 = Done (Some ErrClosedPipe)
     ∧ length (sent w out.2) = k).
Proof.
  intros Hcap. cbv zeta. unfold writeFrame. cbn [Size Payload].
  pose proof (XORKeyStream_length (enc w) (frameHeader size)) as Hlh.
  rewrite length_frameHeader in Hlh.
  destruct (XORKeyStream (enc w) (frameHeader size)) as [e1 head].
  cbn [set_enc egressMAC macCipher].
  destruct (updateMAC (egressMAC w) (macCipher w) head) as [h1 mac].
  cbn [set_egressMAC set_enc conn]. simpl in Hlh.
  rewrite (conn_Write_cap _ _ _ Hcap).
  assert (Hlhb : length (head ++ copy_into 16 mac) = 32%nat)
    by (rewrite length_app, length_copy_into; lia).
  case_decide as H32; simpl.
  2:{ split; [intros; lens; lia|]. intros _. split; [reflexivity|].
      erewrite length_sent_app by reflexivity.
      lens. lia. }
  unfold tee_Write. simpl.
  pose proof (XORKeyStream_length e1 body) as Hlb.
  destruct (XORKeyStream e1 body) as [e2 cbody]. simpl in *.
  erewrite conn_Write_cap by reflexivity.
  case_decide as Hb; simpl.
  2:{ split; [intros; lens; lia|]. intros _. split; [reflexivity|].
      erewrite length_sent_app by (simpl; by rewrite <- app_assoc).
      lens. lia. }
  unfold io_Copy. simpl.
  pose proof (updateMAC_length (hash_Write h1 cbody) (macCipher w)
                (hash_Sum (hash_Write h1 cbody))) as Hlm2.
  destruct (updateMAC (hash_Write h1 cbody) (macCipher w)
              (hash_Sum (hash_Write h1 cbody))) as [h3 mac2].
  simpl in *. erewrite conn_Write_cap by reflexivity.
  case_decide as Hm; simpl.
  - split; [|intros; lens; lia]. intros _. split; [reflexivity|]. split.
    + erewrite length_sent_app by (simpl; by rewrite <- !app_assoc).
      lens. lia.
    + f_equal. lens. lia.
  - split; [intros; lens; lia|]. intros _. split; [reflexivity|].
    erewrite length_sent_app by (simpl; by rewrite <- !app_assoc).
    lens. lia.
Qed.

(** X5. A partial write is an error.  On a connection that accepts [k] more
    bytes, [writeQKCMsg] succeeds exactly when the whole frame (16 header
    bytes, 16 of header MAC, the body, 16 of frame MAC) fits: then the frame
    is on the wire and the capacity has dropped by its length; otherwise the
    connection's error is returned and only [k] bytes went out. *)
Theorem writeQKCMsg_capacity `{!RlpxLaws R} `{!SnappyLaws S}
    (w : RW) (code : Z) (payload : bytes) (k : nat) :
  Z.of_nat (length payload) ≤ maxUint24 →
  wcap (conn w) = Some k →
  let n := length (frameBody (snappy w) payload) in
  let out := writeQKCMsg w (mkMsg code (Z.of_nat (length payload))
                              (Some (bytes_NewReader payload))) in
  ((48 + n ≤ k)%nat →
   out.1 = Done None
   ∧ length (sent w out.2) = (48 + n)%nat
   ∧ wcap (conn out.2) = Some (k - (48 + n))%nat)
  ∧ ((k < 48 + n)%nat →
     out.1 = Done (Some ErrClosedPipe)
     ∧ length (sent w out.2) = k).
Proof.
  intros Hp Hcap. cbv zeta. unfold writeQKCMsg, compressMsg, frameBody.
  destruct (snappy w) eqn:Hs.
  - cbn [Size Payload Code ioutil_ReadAll Reader_ReadAll bytes_NewReader
         pending].
    rewrite (proj2 (Z.ltb_ge _ _)) by lia.
    apply (writeFrame_capacity w _ _ (snappy_Encode payload) k Hcap).
  - apply (writeFrame_capacity w _ _ payload k Hcap).
Qed.

(** On an open connection [writeFrame] has sent the 32-byte header block
    before it looks at the payload stream. *)
Lemma writeFrame_header_first (w : RW) (msg : Msg) :
  wcap (conn w) = None →
  ∃ w1,
    length (sent w w1) = 32%nat
    ∧ (Payload msg = None → writeFrame w msg = (Panic, w1))
    ∧ (∀ src e, Payload msg = Some src → failure src = Some e →
         writeFrame w msg = (Done (Some e), w1)).
Proof.
  intros Hopen. unfold writeFrame.
  pose proof (XORKeyStream_length (enc w) (frameHeader (Size msg))) as Hlh.
  rewrite length_frameHeader in Hlh.
  destruct (XORKeyStream (enc w) (frameHeader (Size msg))) as [e1 head].
  simpl in Hlh. simpl.
  destruct (updateMAC (egressMAC w) (macCipher w) head) as [h1 mac]. simpl.
  rewrite (conn_Write_open _ _ Hopen). simpl.
  exists (mkRW (mkConn (inbound (conn w))
                  (outbound (conn w) ++ head ++ copy_into 16 mac) None)
            e1 (dec w) (macCipher w) h1 (ingressMAC w) (snappy w)).
  split; [|split].
  - erewrite length_sent_app by reflexivity.
    rewrite length_app, length_copy_into. lia.
  - intros ->. reflexivity.
  - intros src e -> Hf. simpl. by rewrite Hf.
Qed.

(** X6. With compression off, a payload stream that reports an error makes
    [writeQKCMsg] return that error, but only after the 32 bytes of header
    and header MAC have gone out: a frame without body is left on the
    wire. *)
Theorem writeQKCMsg_payload_error (w : RW) (msg : Msg) (src : Reader)
    (e : error) :
  snappy w = false →
  wcap (conn w) = None →
  Payload msg = Some src →
  failure src = Some e →
  let out := writeQKCMsg w msg in
  out.1 = Done (Some e) ∧ length (sent w out.2) = 32%nat.
Proof.
  intros Hs Hopen Hsrc Hf. cbv zeta. unfold writeQKCMsg, compressMsg.
  rewrite Hs.
  destruct (writeFrame_header_first w msg Hopen) as (w1 & Hl & _ & Herr).
  by rewrite (Herr src e Hsrc Hf).
Qed.

(** X7. With compression on, neither an error of the payload stream nor the
    size field (once it passed the bound check) matters: the bytes the
    stream gave before it stopped are compressed, framed and sent with
    success, and the matching reader receives them as a complete
    message. *)
Theorem snappy_sends_what_was_read `{!RlpxLaws R} `{!SnappyLaws S}
    (w : RW) (msg : Msg) (src : Reader) :
  snappy w = true →
  wcap (conn w) = None →
  Size msg ≤ maxUint24 →
  Payload msg = Some src →
  Z.of_nat (length (pending src)) ≤ maxUint24 →
  ∃ w',
    writeQKCMsg w msg = (Done None, w')
    ∧ ∀ (r : RW) (rest : bytes),
        matching w r →
        inbound (conn r) = sent w w' ++ rest →
        (readQKCMsg r).1
        = (mkMsg baseProtocolLength (Z.of_nat (length (pending src)))
             (Some (bytes_NewReader (pending src))), None).
Proof.
  intros Hs Hopen Hsz Hsrc Hp.
  assert (Heq : writeQKCMsg w msg
                = writeQKCMsg w (mkMsg (Code msg)
                                   (Z.of_nat (length (pending src)))
                                   (Some (bytes_NewReader (pending src))))).
  { unfold writeQKCMsg, compressMsg. rewrite Hs, Hsrc. simpl.
    by rewrite !(proj2 (Z.ltb_ge _ _)) by lia. }
  rewrite Heq, (writeQKCMsg_ok _ _ _ Hp Hopen). cbv zeta.
  destruct (sealFrame (enc w) (egressMAC w) (macCipher w) _
              (frameBody (snappy w) (pending src))) as [[f e] h] eqn:Hseal.
  eexists. split; [reflexivity|].
  intros r rest (Hdec & Hmac & Hk & Hsn) Hin.
  rewrite (sent_app _ _ f) in Hin by reflexivity.
  pose proof (readQKCMsg_sealed r (pending src) rest Hp) as Hr.
  cbv zeta in Hr. rewrite Hdec, Hmac, Hk, Hsn, Hseal in Hr.
  by rewrite (Hr Hin).
Qed.

(** X8. A message without payload stream makes [writeQKCMsg] panic: with
    compression on (and a size within the bound) before anything is
    written, with compression off after the 32-byte header block has gone
    out. *)
Theorem writeQKCMsg_nil_payload (w : RW) (msg : Msg) :
  Payload msg = None →
  (snappy w = true → Size msg ≤ maxUint24 → writeQKCMsg w msg = (Panic, w))
  ∧ (snappy w = false → wcap (conn w) = None →
     (writeQKCMsg w msg).1 = Panic
     ∧ length (sent w (writeQKCMsg w msg).2) = 32%nat).
Proof.
  intros Hnil. unfold writeQKCMsg, compressMsg. split.
  - intros -> Hsz. rewrite (proj2 (Z.ltb_ge _ _) Hsz), Hnil. reflexivity.
  - intros -> Hopen.
    destruct (writeFrame_header_first w msg Hopen) as (w1 & Hl & Hp & _).
    by rewrite (Hp Hnil).
Qed.

(** X9. What a successful [readQKCMsg] returns.  [readFrame] has returned
    a frame body without error, and the state returned is the one it left.
    The code is [baseProtocolLength].  With compression off the payload
    reads that very body, the size is its length, and no snappy call is
    made.  With compression on the payload is what [snappy_Decode] made of
    that body, the size is the length that body declares, which is at most
    [maxUint24], and the snappy calls made are [DecodedLen] and then
    [Decode], both on that body. *)
Theorem readQKCMsg_success_shape (rw rw' : RW) (msg : Msg) :
  readQKCMsg rw = (msg, None, rw') →
  let body := (readFrame rw).1.1 in
  (readFrame rw).1.2 = None
  ∧ rw' = (readFrame rw).2
  ∧ Code msg = baseProtocolLength
  ∧ (snappy rw = false →
     Payload msg = Some (bytes_NewReader body)
     ∧ Size msg = uint32 (Z.of_nat (length body))
     ∧ (readQKCMsgTraced rw).2 = [])
  ∧ (snappy rw = true →
     ∃ p size,
       snappy_DecodedLen body = (size, None)
       ∧ snappy_Decode body = (p, None)
       ∧ size ≤ maxUint24
       ∧ Payload msg = Some (bytes_NewReader p)
       ∧ Size msg = uint32 size
       ∧ (readQKCMsgTraced rw).2 = [CallDecodedLen body; CallDecode body]).
Proof.
  unfold readQKCMsg, readQKCMsgTraced.
  pose proof (readFrame_snappy rw) as Hsn.
  destruct (readFrame rw) as [[fb [e|]] rw1]; [by intros [=]|].
  simpl in Hsn. rewrite Hsn.
  unfold decodeFrameTraced, call_DecodedLen, call_Decode.
  destruct (snappy rw).
  - cbn [Reader_ReadAll bytes_NewReader pending failure].
    destruct (snappy_DecodedLen fb) as [size [e|]] eqn:Hd; [by intros [=]|].
    destruct (Z.ltb_spec maxUint24 size); [by intros [=]|].
    destruct (snappy_Decode fb) as [p [e|]] eqn:Hp; [by intros [=]|].
    intros [= <- <-]. cbn [fst snd Code Size Payload].
    do 3 (split; [done|]). split; [done|]. intros _. exists p, size.
    by rewrite Hd, Hp.
  - intros [= <- <-]. cbn [fst snd Code Size Payload].
    do 3 (split; [done|]). by split.
Qed.

End StreamFacts.

(** ** More on the handshake *)

Section MoreHandshakeFacts.
Context `{R : Rlpx} `{S : Snappy} `{Q : !QKCCodec}.

(** X10. The failures the handshake does report.  An error of the devp2p
    exchange is returned at once (nothing of the hello is written); an
    error of the hello write is returned; an error of the payload stream of
    the message read, or of its decoding, is returned.  In each case no
    handshake record is returned. *)
Theorem doProtoHandshake_failures (q : RW) (our : protoHandshake) (e : error) :
  (∀ their q1,
     rlpx_doProtoHandshake q our = (their, Some e, q1) →
     doProtoHandshake q our = (Done (None, Some e), q1))
  ∧ (∀ their q1 q2,
       rlpx_doProtoHandshake q our = (their, None, q1) →
       WriteMsg q1 (makeMsg Hello 0 (helloCmd our)).1 = (Done (Some e), q2) →
       doProtoHandshake q our = (Done (None, Some e), q2))
  ∧ (∀ their q1 q2 q3 msg rerr src,
       rlpx_doProtoHandshake q our = (their, None, q1) →
       WriteMsg q1 (makeMsg Hello 0 (helloCmd our)).1 = (Done None, q2) →
       ReadMsg q2 = (msg, rerr, q3) →
       Payload msg = Some src →
       (failure src = Some e
        ∨ (failure src = None ∧ (DecodeQKCMsg (pending src)).2 = Some e)) →
       doProtoHandshake q our = (Done (None, Some e), q3)).
Proof.
  unfold doProtoHandshake. repeat split.
  - intros their q1 ->. reflexivity.
  - intros their q1 q2 -> Hw.
    destruct (makeMsg Hello 0 (helloCmd our)) as [hello herr].
    simpl in Hw. by rewrite Hw.
  - intros their q1 q2 q3 msg rerr src -> Hw Hr Hsrc Hcase.
    destruct (makeMsg Hello 0 (helloCmd our)) as [hello herr].
    simpl in Hw. rewrite Hw, Hr, Hsrc. simpl.
    destruct Hcase as [->|[-> Hd]]; [done|].
    destruct (DecodeQKCMsg (pending src)) as [m err]. simpl in Hd.
    by rewrite Hd.
Qed.

(** X11. What a successful handshake guarantees: the devp2p exchange
    succeeded and its record is the one returned, the hello was written
    without error, and the message read had a payload stream that was read
    to its end and decoded.  Nothing is guaranteed about the error of
    [ReadMsg] or about the content of the decoded message. *)
Theorem doProtoHandshake_success_inv (q q' : RW) (our : protoHandshake)
    (their : option protoHandshake) :
  doProtoHandshake q our = (Done (their, None), q') →
  ∃ q1 q2 msg rerr src m,
    rlpx_doProtoHandshake q our = (their, None, q1)
    ∧ WriteMsg q1 (makeMsg Hello 0 (helloCmd our)).1 = (Done None, q2)
    ∧ ReadMsg q2 = (msg, rerr, q')
    ∧ Payload msg = Some src ∧ failure src = None
    ∧ DecodeQKCMsg (pending src) = (m, None).
Proof.
  unfold doProtoHandshake.
  destruct (rlpx_doProtoHandshake q our) as [[per [e|]] q1]; simpl;
    [intros [=]|].
  destruct (makeMsg Hello 0 (helloCmd our)) as [hello herr]. simpl.
  destruct (WriteMsg q1 hello) as [[[e|]|] q2] eqn:Hw; simpl;
    [intros [=]| |intros [=]].
  destruct (ReadMsg q2) as [[msg rerr] q3] eqn:Hr.
  destruct (Payload msg) as [src|] eqn:Hsrc; simpl; [|intros [=]].
  destruct (failure src) as [e|] eqn:Hf; simpl; [intros [=]|].
  destruct (DecodeQKCMsg (pending src)) as [m [e|]] eqn:Hd; simpl;
    [intros [=]|].
  intros [= <- <-]. exists q1, q2, msg, rerr, src, m. by repeat split.
Qed.

End MoreHandshakeFacts.

(** ** More on the dispatch loop *)

Section MoreDispatcherFacts.
Context `{R : Rlpx} `{Q : !QKCCodec} `{G : Registry} `{MsgReadWriter W}.

(** What one pass can do to the record of invocations and to the log. *)
Lemma qkcMsgHandle_body_cases (st : loopState) :
  let '(r, st') := qkcMsgHandle_body st in
  (r = Continue ∧ errlog st' = errlog st
   ∧ (calls st' = calls st ∨ ∃ c, calls st' = calls st ++ [c]))
  ∨ (r = Panicked ∧ errlog st' = errlog st ∧ calls st' = calls st
     ∧ ∃ msg, (ws_ReadMsg (ws st)).1 = (msg, None) ∧ Payload msg = None)
  ∨ (∃ e, r = Return (Some e) ∧ calls st' = calls st)
  ∨ (r = Return None ∧ calls st' = calls st
     ∧ errlog st' = errlog st ++ ["unExcepted op"%string]
     ∧ ∃ msg src m,
         (ws_ReadMsg (ws st)).1 = (msg, None) ∧ Payload msg = Some src
         ∧ failure src = None ∧ DecodeQKCMsg (pending src) = (m, None)
         ∧ OPSerializerMap !! op m = None).
Proof.
  unfold qkcMsgHandle_body.
  destruct (ws_ReadMsg (ws st)) as [[msg [e|]] w]; simpl.
  { right; right; left. eauto. }
  destruct (Payload msg) as [src|] eqn:Hsrc; simpl.
  2:{ right; left. repeat split; eauto. }
  destruct (failure src) as [e|] eqn:Hf; simpl.
  { right; right; left. eauto. }
  destruct (DecodeQKCMsg (pending src)) as [m [e|]] eqn:Hd; simpl.
  { right; right; left. eauto. }
  destruct (OPSerializerMap !! op m) eqn:Hs; simpl.
  2:{ right; right; right. repeat split; eauto 10. }
  destruct (OPNonRPCMap !! op m); simpl; [left; eauto 10|].
  destruct (OpRPCMap !! op m); simpl; left; eauto 10.
Qed.

(** X12. An error of [ReadMsg], of the payload stream, or of
    [DecodeQKCMsg] ends the loop in that pass: the loop returns exactly that
    error and no handler is invoked. *)
Theorem qkcMsgHandle_stops_on_error (st : loopState) (e : error) :
  (∃ msg w, ws_ReadMsg (ws st) = (msg, Some e, w))
  ∨ (∃ msg w src,
       ws_ReadMsg (ws st) = (msg, None, w) ∧ Payload msg = Some src
       ∧ (failure src = Some e
          ∨ (failure src = None
             ∧ (DecodeQKCMsg (pending src)).2 = Some e))) →
  ∀ fuel,
    (qkcMsgHandle (S fuel) st).1 = Some (Done (Some e))
    ∧ calls (qkcMsgHandle (S fuel) st).2 = calls st.
Proof.
  intros Hcase fuel. simpl. unfold qkcMsgHandle_body.
  destruct Hcase as [(msg & w & ->)|(msg & w & src & -> & Hsrc & Hcase)];
    simpl; [done|].
  rewrite Hsrc. simpl.
  destruct Hcase as [->|[-> Hd]]; simpl; [done|].
  destruct (DecodeQKCMsg (pending src)) as [m err]. simpl in Hd. subst err.
  done.
Qed.

(** X13. A message whose opcode has a serializer but neither kind of
    handler is dropped in silence: no invocation, no log entry, no error,
    and the loop goes on with the next message. *)
Theorem unhandled_op_is_skipped (st : loopState) (msg : Msg) (w : W)
    (src : Reader) (m : QKCMsg) :
  ws_ReadMsg (ws st) = (msg, None, w) →
  Payload msg = Some src → failure src = None →
  DecodeQKCMsg (pending src) = (m, None) →
  is_Some (OPSerializerMap !! op m) →
  OPNonRPCMap !! op m = None →
  OpRPCMap !! op m = None →
  qkcMsgHandle_body st = (Continue, mkLoop w (calls st) (errlog st))
  ∧ ∀ fuel,
      qkcMsgHandle (S fuel) st
      = qkcMsgHandle fuel (mkLoop w (calls st) (errlog st)).
Proof.
  intros H1 H2 H3 H4 [ser H5] H6 H7.
  assert (Hb : qkcMsgHandle_body st
               = (Continue, mkLoop w (calls st) (errlog st))).
  { unfold qkcMsgHandle_body. rewrite H1, H2. simpl.
    by rewrite H3, H4, H5, H6, H7. }
  split; [exact Hb|]. intros fuel. simpl. by rewrite Hb.
Qed.

(** X14. A message without a payload stream stops the loop with a panic:
    when [ReadMsg] returns, without error, a message whose [Payload] is nil,
    the pass panics in ioutil.ReadAll on line 38, before anything is decoded,
    logged or handed to a handler, and so does the loop. *)
Theorem qkcMsgHandle_nil_payload_panics
    (st : loopState) (msg : Msg) (w : W) :
  ws_ReadMsg (ws st) = (msg, None, w) →
  Payload msg = None →
  qkcMsgHandle_body st = (Panicked, mkLoop w (calls st) (errlog st))
  ∧ ∀ fuel,
      qkcMsgHandle (S fuel) st
      = (Some Panic, mkLoop w (calls st) (errlog st)).
Proof.
  intros Hr Hnil.
  assert (Hb : qkcMsgHandle_body st
               = (Panicked, mkLoop w (calls st) (errlog st))).
  { unfold qkcMsgHandle_body. by rewrite Hr, Hnil. }
  split; [exact Hb|]. intros fuel. simpl. by rewrite Hb.
Qed.

(** X15. The loop only ever adds invocations, and at most one per pass:
    after any number of passes the invocations made before are a prefix of
    the record, which has grown by at most the number of passes. *)
Theorem qkcMsgHandle_calls_grow (fuel : nat) (st : loopState) :
  calls st `prefix_of` calls (qkcMsgHandle fuel st).2
  ∧ (length (calls (qkcMsgHandle fuel st).2) ≤ length (calls st) + fuel)%nat.
Proof.
  revert st. induction fuel as [|fuel IH]; intros st; simpl.
  { split; [done|lia]. }
  pose proof (qkcMsgHandle_body_cases st) as Hc.
  destruct (qkcMsgHandle_body st) as [r st1].
  destruct Hc as [(-> & _ & Hcalls)|[(-> & _ & Hcalls & _)
                 |[(e & -> & Hcalls)|(-> & Hcalls & _)]]]; simpl;
    try (rewrite Hcalls; split; [done|lia]).
  destruct (IH st1) as [Hp Hl].
  destruct Hcalls as [Hcalls|[c Hcalls]]; rewrite Hcalls in Hp, Hl.
  - split; [done|lia].
  - split.
    + etrans; [|exact Hp]. by apply prefix_app_r.
    + rewrite length_app in Hl. simpl in Hl. lia.
Qed.

(** X16. The loop returns the nil error on one path only: whenever it
    returns nil, the last thing it logged is "unExcepted op". *)
Theorem qkcMsgHandle_nil_return (fuel : nat) (st st' : loopState) :
  qkcMsgHandle fuel st = (Some (Done None), st') →
  ∃ log, errlog st' = log ++ ["unExcepted op"%string].
Proof.
  revert st. induction fuel as [|fuel IH]; intros st; simpl; [by intros [=]|].
  pose proof (qkcMsgHandle_body_cases st) as Hc.
  destruct (qkcMsgHandle_body st) as [r st1].
  destruct Hc as [(-> & _ & _)|[(-> & _)
                 |[(e & -> & _)|(-> & _ & Hlog & _)]]]; simpl.
  - apply IH.
  - intros [=].
  - intros [=].
  - intros [= <-]. eauto.
Qed.

End MoreDispatcherFacts.

(** ** More on the configuration *)

Lemma runeWidth_coerceBytes (b : N) (t : list N) (k : nat) :
  runeWidth (b :: t) = S k → runeWidth (b :: coerceBytes k t) = S k.
Proof.
  unfold runeWidth.
  destruct (b <? 128)%N; [by intros [= <-]|].
  destruct ((194 <=? b) && (b <=? 223))%N.
  { destruct t as [|b1 t]; [done|].
    destruct (isCont b1) eqn:H1; [|done]. intros [= <-]. simpl.
    by rewrite H1. }
  destruct ((224 <=? b) && (b <=? 239))%N.
  { destruct t as [|b1 [|b2 t]]; [done|done|]. cbv zeta.
    destruct (_ && isCont b2) eqn:H1; [|done]. intros [= <-]. simpl.
    by rewrite H1. }
  destruct ((240 <=? b) && (b <=? 244))%N; [|done].
  destruct t as [|b1 [|b2 [|b3 t]]]; [done|done|done|]. cbv zeta.
  destruct (_ && isCont b3) eqn:H1; [|done]. intros [= <-]. simpl.
  by rewrite H1.
Qed.

Lemma validBytes_coerceBytes (skip : nat) (s : list N) :
  validBytes skip (coerceBytes skip s) = true.
Proof.
  revert skip. induction s as [|b t IH]; intros skip; [done|].
  destruct skip as [|k].
  - cbn [coerceBytes]. destruct (runeWidth (b :: t)) as [|k] eqn:Hw.
    + change (validBytes 0 (239%N :: 191%N :: 189%N :: coerceBytes 0 t))
        with (validBytes 0 (coerceBytes 0 t)). apply IH.
    + cbn [validBytes]. rewrite (runeWidth_coerceBytes _ _ _ Hw). apply IH.
  - cbn [coerceBytes validBytes]. apply IH.
Qed.

Lemma coerceBytes_bounded (skip : nat) (s : list N) :
  Forall (λ n, (n < 256)%N) s → Forall (λ n, (n < 256)%N) (coerceBytes skip s).
Proof.
  intros Hs. revert skip. induction Hs as [|b t Hb Ht IH]; intros skip; [done|].
  cbn [coerceBytes]. destruct skip as [|k].
  - destruct (runeWidth (b :: t)).
    + repeat (constructor; [done|]). apply IH.
    + constructor; [done|apply IH].
  - constructor; [done|apply IH].
Qed.

Lemma string_bytes_bounded (s : string) :
  Forall (λ n, (n < 256)%N) (string_bytes s).
Proof.
  unfold string_bytes. apply Forall_forall. intros n Hn.
  apply list_elem_of_In, in_map_iff in Hn. destruct Hn as (a & <- & _).
  apply N_ascii_bounded.
Qed.

Lemma string_bytes_bytes_string (l : list N) :
  Forall (λ n, (n < 256)%N) l → string_bytes (bytes_string l) = l.
Proof.
  intros Hl. unfold string_bytes, bytes_string.
  rewrite list_ascii_of_string_of_list_ascii, map_map.
  induction Hl as [|n l Hn Hl IH]; [done|].
  simpl. rewrite IH. f_equal. by apply N_ascii_embedding.
Qed.

(** What encoding/json writes is valid UTF-8, so writing it again changes
    nothing. *)
Lemma utf8_Valid_coerceUTF8 (s : string) : utf8_Valid (coerceUTF8 s) = true.
Proof.
  unfold utf8_Valid, coerceUTF8.
  rewrite string_bytes_bytes_string
    by apply coerceBytes_bounded, string_bytes_bounded.
  apply validBytes_coerceBytes.
Qed.

Lemma coerceUTF8_idemp (s : string) : coerceUTF8 (coerceUTF8 s) = coerceUTF8 s.
Proof. apply coerceUTF8_valid, utf8_Valid_coerceUTF8. Qed.

Section MoreConfigFacts.
Context `{E : ConfigEnv} `{J : !EncodingJSON} `{D : ConfigDefaults}.

(** X17. The JSON round trip is idempotent.  For every config, valid UTF-8
    or not, the config that comes out of [MarshalJSON] followed by
    [UnmarshalJSON] is reproduced exactly, in every field, by a second
    round trip, and its IP and ID are valid UTF-8. *)
Theorem roundtrip_idempotent `{!ConfigLaws E} `{!EncodingJSONLaws J}
    (s s0 s0' : SlaveConfig) :
  let s1 := (UnmarshalJSON s0 (MarshalJSON s).1).1 in
  UnmarshalJSON s0' (MarshalJSON s1).1 = (s1, None)
  ∧ utf8_Valid (IP s1) = true ∧ utf8_Valid (ID s1) = true.
Proof.
  cbv zeta. unfold MarshalJSON, UnmarshalJSON.
  rewrite json_Unmarshal_Marshal. unfold json_image. simpl.
  rewrite json_Unmarshal_Marshal. unfold json_image. simpl.
  rewrite !coerceUTF8_idemp, !utf8_Valid_coerceUTF8.
  repeat split. do 2 f_equal.
  rewrite (map_map NewChainMask GetMask).
  rewrite (map_ext (λ x, GetMask (NewChainMask x)) id)
    by (intros v; apply GetMask_NewChainMask).
  by rewrite map_id.
Qed.

(** X18. The JSON round trip of the default config, field by field: as
    long as [DefaultHost] is valid UTF-8, [MarshalJSON] succeeds and
    [UnmarshalJSON] of its output succeeds with the IP, Port, ID and WSPort
    that [NewDefaultSlaveConfig] set, and with a ChainMaskList of length 0
    (made by make on line 41, where [NewDefaultSlaveConfig] left nil). *)
Theorem NewDefaultSlaveConfig_roundtrip_fields `{!EncodingJSONLaws J}
    (s0 : SlaveConfig) :
  utf8_Valid DefaultHost = true →
  (MarshalJSON NewDefaultSlaveConfig).2 = None
  ∧ (UnmarshalJSON s0 (MarshalJSON NewDefaultSlaveConfig).1).2 = None
  ∧ let s' := (UnmarshalJSON s0 (MarshalJSON NewDefaultSlaveConfig).1).1 in
    IP s' = DefaultHost
    ∧ Port s' = slavePort
    ∧ ID s' = ""%string
    ∧ WSPort s' = DefaultWSPort
    ∧ length (ChainMaskList s') = 0%nat.
Proof.
  intros Hv. unfold MarshalJSON, UnmarshalJSON.
  split; [apply json_Marshal_ok|].
  rewrite json_Unmarshal_Marshal. unfold json_image, NewDefaultSlaveConfig.
  simpl. by rewrite (coerceUTF8_valid _ Hv).
Qed.

End MoreConfigFacts.

(** * The further properties on the example instance *)

Lemma two_frames_in_sequence_witness :
  ∃ w1 w2,
    @writeQKCMsg exampleRlpx exampleSnappy (exampleWriter true)
      (payloadMsg [1; 2; 3]) = (Done None, w1)
    ∧ @writeQKCMsg exampleRlpx exampleSnappy w1 (payloadMsg []) = (Done None, w2)
    ∧ ∀ (r : rlpxFrameRW Z Z Z) (rest : bytes),
        @matching exampleRlpx (exampleWriter true) r →
        inbound (conn r) = @sent exampleRlpx (exampleWriter true) w2 ++ rest →
        ∃ r1 r2,
          @readQKCMsg exampleRlpx exampleSnappy r
          = (payloadMsg [1; 2; 3], None, r1)
          ∧ @readQKCMsg exampleRlpx exampleSnappy r1
            = (payloadMsg [], None, r2)
          ∧ @matching exampleRlpx w2 r2 ∧ inbound (conn r2) = rest.
Proof.
  apply (@two_frames_in_sequence exampleRlpx exampleSnappy
           exampleRlpxLaws exampleSnappyLaws (exampleWriter true) 16 16
           [1; 2; 3] []).
  - vm_compute. discriminate.
  - vm_compute. discriminate.
  - reflexivity.
Defined.

Lemma truncated_frame_rejected_witness :
  ∃ w',
    @writeQKCMsg exampleRlpx exampleSnappy (exampleWriter false)
      (payloadMsg [1; 2; 3]) = (Done None, w')
    ∧ ∀ (r : rlpxFrameRW Z Z Z) (cut : nat),
        @matching exampleRlpx (exampleWriter false) r →
        (cut < length (@sent exampleRlpx (exampleWriter false) w'))%nat →
        inbound (conn r)
        = take cut (@sent exampleRlpx (exampleWriter false) w') →
        ∃ e, (@readQKCMsg exampleRlpx exampleSnappy r).1 = (zeroMsg, Some e)
             ∧ (e = EOF ∨ e = ErrUnexpectedEOF).
Proof.
  apply (@truncated_frame_rejected exampleRlpx exampleSnappy
           exampleRlpxLaws exampleSnappyLaws (exampleWriter false) 16
           [1; 2; 3]).
  - vm_compute. discriminate.
  - reflexivity.
Defined.

Example truncated_frame_runs :
  let wire := outbound (conn (@writeQKCMsg exampleRlpx exampleSnappy
                                (exampleWriter false)
                                (payloadMsg [1; 2; 3])).2) in
  length wire = 51%nat
  ∧ (@readQKCMsg exampleRlpx exampleSnappy
       (exampleReader false (take 0 wire))).1 = (zeroMsg, Some EOF)
  ∧ (@readQKCMsg exampleRlpx exampleSnappy
       (exampleReader false (take 33 wire))).1
    = (zeroMsg, Some ErrUnexpectedEOF)
  ∧ (@readQKCMsg exampleRlpx exampleSnappy
       (exampleReader false (take 35 wire))).1 = (zeroMsg, Some EOF)
  ∧ (@readQKCMsg exampleRlpx exampleSnappy
       (exampleReader false (take 50 wire))).1
    = (zeroMsg, Some ErrUnexpectedEOF).
Proof. vm_compute. repeat split. Qed.

Lemma writeQKCMsg_capacity_witness :
  let w := cappedWriter false 40 in
  let out := @writeQKCMsg exampleRlpx exampleSnappy w (payloadMsg [1; 2; 3]) in
  ((48 + 3 ≤ 40)%nat →
   out.1 = Done None
   ∧ length (@sent exampleRlpx w out.2) = (48 + 3)%nat
   ∧ wcap (conn out.2) = Some (40 - (48 + 3))%nat)
  ∧ ((40 < 48 + 3)%nat →
     out.1 = Done (Some ErrClosedPipe)
     ∧ length (@sent exampleRlpx w out.2) = 40%nat).
Proof.
  apply (@writeQKCMsg_capacity exampleRlpx exampleSnappy
           exampleRlpxLaws exampleSnappyLaws (cappedWriter false 40) 16
           [1; 2; 3] 40).
  - vm_compute. discriminate.
  - reflexivity.
Defined.

Example capacity_runs :
  (@writeQKCMsg exampleRlpx exampleSnappy (cappedWriter false 51)
     (payloadMsg [1; 2; 3])).1 = Done None
  ∧ (@writeQKCMsg exampleRlpx exampleSnappy (cappedWriter false 50)
       (payloadMsg [1; 2; 3])).1 = Done (Some ErrClosedPipe).
Proof. vm_compute. split; reflexivity. Qed.

Lemma writeQKCMsg_payload_error_witness :
  let out := @writeQKCMsg exampleRlpx exampleSnappy (exampleWriter false)
               (mkMsg 16 3 (Some failingReader)) in
  out.1 = Done (Some "payload: broken"%string)
  ∧ length (@sent exampleRlpx (exampleWriter false) out.2) = 32%nat.
Proof.
  apply (@writeQKCMsg_payload_error exampleRlpx exampleSnappy
           (exampleWriter false) (mkMsg 16 3 (Some failingReader))
           failingReader "payload: broken"%string);
    reflexivity.
Defined.

Lemma snappy_sends_what_was_read_witness :
  ∃ w',
    @writeQKCMsg exampleRlpx exampleSnappy (exampleWriter true)
      (mkMsg 16 1000 (Some failingReader)) = (Done None, w')
    ∧ ∀ (r : rlpxFrameRW Z Z Z) (rest : bytes),
        @matching exampleRlpx (exampleWriter true) r →
        inbound (conn r) = @sent exampleRlpx (exampleWriter true) w' ++ rest →
        (@readQKCMsg exampleRlpx exampleSnappy r).1
        = (payloadMsg [1; 2; 3], None).
Proof.
  apply (@snappy_sends_what_was_read exampleRlpx exampleSnappy
           exampleRlpxLaws exampleSnappyLaws (exampleWriter true)
           (mkMsg 16 1000 (Some failingReader)) failingReader).
  - reflexivity.
  - reflexivity.
  - vm_compute. discriminate.
  - reflexivity.
  - vm_compute. discriminate.
Defined.

Lemma writeQKCMsg_nil_payload_witness :
  (snappy (exampleWriter true) = true → Size zeroMsg ≤ maxUint24 →
   @writeQKCMsg exampleRlpx exampleSnappy (exampleWriter true) zeroMsg
   = (Panic, exampleWriter true))
  ∧ (snappy (exampleWriter true) = false →
     wcap (conn (exampleWriter true)) = None →
     (@writeQKCMsg exampleRlpx exampleSnappy (exampleWriter true) zeroMsg).1
     = Panic
     ∧ length (@sent exampleRlpx (exampleWriter true)
                 (@writeQKCMsg exampleRlpx exampleSnappy (exampleWriter true)
                    zeroMsg).2) = 32%nat).
Proof.
  apply (@writeQKCMsg_nil_payload exampleRlpx exampleSnappy
           (exampleWriter true) zeroMsg).
  reflexivity.
Defined.

Example nil_payload_runs :
  (@writeQKCMsg exampleRlpx exampleSnappy (exampleWriter false) zeroMsg).1
  = Panic
  ∧ length (outbound (conn (@writeQKCMsg exampleRlpx exampleSnappy
                              (exampleWriter false) zeroMsg).2)) = 32%nat.
Proof. vm_compute. split; reflexivity. Qed.

Lemma readQKCMsg_success_shape_witness :
  let rw := exampleHandshaker in
  let msg := (@readQKCMsg exampleRlpx exampleSnappy rw).1.1 in
  let rw' := (@readQKCMsg exampleRlpx exampleSnappy rw).2 in
  let body := (@readFrame exampleRlpx rw).1.1 in
  (@readFrame exampleRlpx rw).1.2 = None
  ∧ rw' = (@readFrame exampleRlpx rw).2
  ∧ Code msg = @baseProtocolLength exampleRlpx
  ∧ (snappy rw = false →
     Payload msg = Some (bytes_NewReader body)
     ∧ Size msg = uint32 (Z.of_nat (length body))
     ∧ (@readQKCMsgTraced exampleRlpx exampleSnappy rw).2 = [])
  ∧ (snappy rw = true →
     ∃ p size,
       @snappy_DecodedLen exampleSnappy body = (size, None)
       ∧ @snappy_Decode exampleSnappy body = (p, None)
       ∧ size ≤ maxUint24
       ∧ Payload msg = Some (bytes_NewReader p)
       ∧ Size msg = uint32 size
       ∧ (@readQKCMsgTraced exampleRlpx exampleSnappy rw).2
         = [CallDecodedLen body; CallDecode body]).
Proof.
  apply (@readQKCMsg_success_shape exampleRlpx exampleSnappy
           exampleHandshaker
           (@readQKCMsg exampleRlpx exampleSnappy exampleHandshaker).2
           (@readQKCMsg exampleRlpx exampleSnappy exampleHandshaker).1.1).
  vm_compute. reflexivity.
Defined.

Lemma doProtoHandshake_success_inv_witness :
  let q := exampleHandshaker in
  let q' := (@doProtoHandshake exampleRlpx exampleSnappy exampleCodec q
               [1; 2; 3]).2 in
  ∃ q1 q2 msg rerr src m,
    @rlpx_doProtoHandshake _ exampleCodec q [1; 2; 3]
    = (Some [1; 2; 3], None, q1)
    ∧ @WriteMsg exampleRlpx exampleSnappy q1
        (@makeMsg _ exampleCodec (@Hello _ exampleCodec) 0
           (@helloCmd _ exampleCodec [1; 2; 3])).1 = (Done None, q2)
    ∧ @ReadMsg exampleRlpx exampleSnappy q2 = (msg, rerr, q')
    ∧ Payload msg = Some src ∧ failure src = None
    ∧ @DecodeQKCMsg _ exampleCodec (pending src) = (m, None).
Proof.
  apply (@doProtoHandshake_success_inv exampleRlpx exampleSnappy exampleCodec
           exampleHandshaker
           (@doProtoHandshake exampleRlpx exampleSnappy exampleCodec
              exampleHandshaker [1; 2; 3]).2
           [1; 2; 3] (Some [1; 2; 3])).
  vm_compute. reflexivity.
Defined.

Example doProtoHandshake_failures_run :
  (@doProtoHandshake exampleRlpx exampleSnappy exampleCodec
     (mkRW (mkConn helloWire [] (Some 10%nat)) 5 9 77 1000 2000 false)
     [1; 2; 3]).1 = Done (None, Some ErrClosedPipe)
  ∧ (@doProtoHandshake exampleRlpx exampleSnappy exampleCodec
       (mkRW (mkConn (@sealFrame exampleRlpx 9 2000 77 1 [7]).1.1 [] None)
          5 9 77 1000 2000 false)
       [1; 2; 3]).1
    = Done (None, Some "decode qkc msg: short body"%string).
Proof. vm_compute. split; reflexivity. Qed.

Lemma qkcMsgHandle_stops_on_error_witness :
  let st : @loopState exampleRegistry (list (Msg * option error)) :=
    mkLoop [] [] [] in
  (@qkcMsgHandle exampleRlpx exampleCodec exampleRegistry _ scriptedReader
     3 st).1 = Some (Done (Some EOF))
  ∧ calls (@qkcMsgHandle exampleRlpx exampleCodec exampleRegistry _
             scriptedReader 3 st).2 = calls st.
Proof.
  apply (@qkcMsgHandle_stops_on_error exampleRlpx exampleCodec
           exampleRegistry _ scriptedReader (mkLoop [] [] []) EOF).
  left. exists zeroMsg, []. reflexivity.
Defined.

Lemma unhandled_op_is_skipped_witness :
  let st := exampleLoop 3 [4; 2] in
  @qkcMsgHandle_body exampleRlpx exampleCodec exampleRegistry _
    scriptedReader st = (Continue, mkLoop [] (calls st) (errlog st))
  ∧ ∀ fuel,
      @qkcMsgHandle exampleRlpx exampleCodec exampleRegistry _
        scriptedReader (S fuel) st
      = @qkcMsgHandle exampleRlpx exampleCodec exampleRegistry _
          scriptedReader fuel (mkLoop [] (calls st) (errlog st)).
Proof.
  apply (@unhandled_op_is_skipped exampleRlpx exampleCodec
           exampleRegistry _ scriptedReader (exampleLoop 3 [4; 2])
           (payloadMsg [3; 0; 4; 2]) [] (bytes_NewReader [3; 0; 4; 2])
           (mkQKCMsg [] 3 0 [4; 2]));
    try reflexivity.
  exists tt. reflexivity.
Defined.

Lemma qkcMsgHandle_nil_payload_panics_witness :
  let st : @loopState exampleRegistry (list (Msg * option error)) :=
    mkLoop [(zeroMsg, None); (payloadMsg [1; 0; 4], None)] [] [] in
  let st' : @loopState exampleRegistry (list (Msg * option error)) :=
    mkLoop [(payloadMsg [1; 0; 4], None)] [] [] in
  @qkcMsgHandle_body exampleRlpx exampleCodec exampleRegistry _
    scriptedReader st = (Panicked, st')
  ∧ ∀ fuel,
      @qkcMsgHandle exampleRlpx exampleCodec exampleRegistry _
        scriptedReader (S fuel) st = (Some Panic, st').
Proof.
  apply (@qkcMsgHandle_nil_payload_panics exampleRlpx exampleCodec
           exampleRegistry _ scriptedReader
           (mkLoop [(zeroMsg, None); (payloadMsg [1; 0; 4], None)] [] [])
           zeroMsg [(payloadMsg [1; 0; 4], None)]);
    reflexivity.
Defined.

Lemma qkcMsgHandle_nil_return_witness :
  ∃ log,
    errlog (@qkcMsgHandle exampleRlpx exampleCodec exampleRegistry _
              scriptedReader 3
              (mkLoop [(payloadMsg [1; 0; 4], None);
                       (payloadMsg [9; 0; 4], None);
                       (payloadMsg [2; 0; 4], None)] [] [])).2
    = log ++ ["unExcepted op"%string].
Proof.
  apply (@qkcMsgHandle_nil_return exampleRlpx exampleCodec
           exampleRegistry _ scriptedReader 3
           (mkLoop [(payloadMsg [1; 0; 4], None);
                    (payloadMsg [9; 0; 4], None);
                    (payloadMsg [2; 0; 4], None)] [] [])).
  vm_compute. reflexivity.
Defined.

Example loop_over_a_script_runs :
  @qkcMsgHandle exampleRlpx exampleCodec exampleRegistry _ scriptedReader 5
    (mkLoop [(payloadMsg [1; 0; 4], None);
             (payloadMsg [3; 0; 5], None);
             (payloadMsg [2; 0; 6], None)] [] [])
  = (Some (Done (Some EOF)),
     mkLoop []
       [@CallNonRPC exampleRegistry "onNewTip"%string 1 [4];
        @CallRPC exampleRegistry "onGetPeers"%string [6]]
       ["readMsg err"%string]).
Proof. vm_compute. reflexivity. Qed.

Lemma roundtrip_idempotent_witness :
  let s1 := (@UnmarshalJSON exampleConfigEnv exampleJSON zeroConfig
               (@MarshalJSON exampleConfigEnv exampleJSON badHostConfig).1).1 in
  @UnmarshalJSON exampleConfigEnv exampleJSON localConfig
    (@MarshalJSON exampleConfigEnv exampleJSON s1).1 = (s1, None)
  ∧ utf8_Valid (IP s1) = true ∧ utf8_Valid (ID s1) = true.
Proof.
  apply (@roundtrip_idempotent exampleConfigEnv exampleJSON
           exampleConfigLaws exampleJSONLaws badHostConfig zeroConfig
           localConfig).
Defined.

Lemma NewDefaultSlaveConfig_roundtrip_fields_witness :
  (@MarshalJSON exampleConfigEnv exampleJSON
     (@NewDefaultSlaveConfig exampleConfigEnv exampleDefaults)).2 = None
  ∧ (@UnmarshalJSON exampleConfigEnv exampleJSON localConfig
       (@MarshalJSON exampleConfigEnv exampleJSON
          (@NewDefaultSlaveConfig exampleConfigEnv exampleDefaults)).1).2
    = None
  ∧ let s' :=
      (@UnmarshalJSON exampleConfigEnv exampleJSON localConfig
         (@MarshalJSON exampleConfigEnv exampleJSON
            (@NewDefaultSlaveConfig exampleConfigEnv exampleDefaults)).1).1 in
    IP s' = @DefaultHost exampleDefaults
    ∧ Port s' = @slavePort exampleDefaults
    ∧ ID s' = ""%string
    ∧ WSPort s' = @DefaultWSPort exampleConfigEnv
    ∧ length (ChainMaskList s') = 0%nat.
Proof.
  apply (@NewDefaultSlaveConfig_roundtrip_fields exampleConfigEnv exampleJSON
           exampleDefaults exampleJSONLaws localConfig).
  reflexivity.
Defined.
